(** * Overlapping-intervals index of the sequence DDS

    A shallow embedding of
    [packages/dds/sequence/src/intervalIndex/overlappingIntervalsIndex.ts]
    (class [OverlappingIntervalsIndex]) together with the collaborators it
    calls: the position model, the interval comparisons and the augmented
    interval tree. *)

From Stdlib Require Import ZArith List Bool Lia String.
From Stdlib Require Import Sorting.Sorted Sorting.Permutation.
Import ListNotations.
Local Open Scope Z_scope.

(** ** Position model *)

(** [Side] of intervalCollection: which side of an offset a place denotes. *)
Inductive Side : Type :=
| Before
| After.

(** Modelled from the spec: the type [SequencePlace] is declared in
    intervalCollection.ts, not among the sources.  A place is a plain offset,
    one of the two string literals the index passes as defaults
    ([start ?? "start"], [end ?? "end"]), or an interior place
    [{ pos, side }]. *)
Inductive SequencePlace : Type :=
| PlaceNumber (n : Z)
| PlaceStart
| PlaceEnd
| PlaceInterior (p : Z) (s : Side).

(** The canonical pair [{ pos, side }] that [normalizeSequencePlace] returns. *)
Record Place : Type := mkPlace { pos : Z; side : Side }.

(** Modelled from the spec: [normalizeSequencePlace] of intervalCollection.ts
    is not among the sources.  It is total and pure, keeps interior places,
    gives a plain offset the side [Before], and maps the two sentinels to
    offset [-1].  The side of each sentinel is the one the inversion rules
    and the comments of [findOverlappingIntervals] read: [(-1, Before)] "is
    the end of the sequence" and [(-1, After)] "is the start of the
    sequence". *)
Definition normalizeSequencePlace (place : SequencePlace) : Place :=
  match place with
  | PlaceNumber n => mkPlace n Before
  | PlaceStart => mkPlace (-1) After
  | PlaceEnd => mkPlace (-1) Before
  | PlaceInterior p s => mkPlace p s
  end.

(** [a === b] on sides. *)
Definition Side_eqb (a b : Side) : bool :=
  match a, b with
  | Before, Before | After, After => true
  | _, _ => false
  end.

(** ** Position order *)

(** A three-way comparison of two numbers: negative, zero or positive. *)
Definition sign3 (a b : Z) : Z :=
  if a <? b then -1 else if b <? a then 1 else 0.

(** Lexicographic combination of two three-way comparisons. *)
Definition thenBy (c d : Z) : Z := if c =? 0 then d else c.

(** Start of the sequence, resolved offset, end of the sequence. *)
Definition placeClass (p : Place) : Z :=
  if pos p =? -1
  then match side p with After => 0 | Before => 2 end
  else 1.

(** The offset of a resolved place; the sentinels have none. *)
Definition placeOffset (p : Place) : Z :=
  if pos p =? -1 then 0 else pos p.

(** The side of a resolved place, [Before] first. *)
Definition placeSide (p : Place) : Z :=
  if pos p =? -1 then 0
  else match side p with Before => 0 | After => 1 end.

(** Modelled from the spec: the comparison of two normalized places belongs
    to the sequence collaborator, which is not among the sources.  The start
    of the sequence sorts before every resolved offset, the end of the
    sequence after every resolved offset; resolved places are ordered by
    offset and, at one offset, [Before] sorts before [After]. *)
Definition comparePlace (a b : Place) : Z :=
  thenBy (sign3 (placeClass a) (placeClass b))
         (thenBy (sign3 (placeOffset a) (placeOffset b))
                 (sign3 (placeSide a) (placeSide b))).

(** The later of two places. *)
Definition placeMax (a b : Place) : Place :=
  if comparePlace a b <? 0 then b else a.

(** ** Intervals *)

(** Modelled from the spec: [IntervalType] is declared in intervals/, not
    among the sources.  The index only builds [Transient] intervals; what a
    caller registers is [Persistent]. *)
Inductive IntervalType : Type :=
| Persistent
| Transient.

(** Modelled from the spec: an interval as the index sees it.  Its label
    stands for the identity of the object, its two endpoints are normalized
    places. *)
Record Interval : Type := mkInterval {
  label : string;
  start : Place;
  end_ : Place;
  intervalType : IntervalType
}.

(** Modelled from the spec: the three comparisons of [ISerializableInterval]
    are implemented in intervals/, not among the sources.  [compareStart] and
    [compareEnd] compare one endpoint under the position order; [compare] is
    start-major, end-minor. *)
Definition compareStart (a b : Interval) : Z := comparePlace (start a) (start b).

(** Modelled from the spec: [compareEnd], see [compareStart]. *)
Definition compareEnd (a b : Interval) : Z := comparePlace (end_ a) (end_ b).

(** Modelled from the spec: [compare], start-major and end-minor; two
    intervals with equal endpoints tie. *)
Definition compare (a b : Interval) : Z :=
  thenBy (compareStart a b) (compareEnd a b).

(** Modelled from the spec: the overlap predicate, [I.start <= Q.end] and
    [I.end >= Q.start] under the position order. *)
Definition overlaps (i q : Interval) : bool :=
  (comparePlace (start i) (end_ q) <=? 0) && (comparePlace (end_ i) (start q) >=? 0).

(** Modelled from the spec: [helpers.create] of intervals/ builds an interval
    value from raw places and does not touch the tree.  The client and the
    trailing optional arguments only matter to the sequence collaborator. *)
Definition create (lbl : string) (s e : SequencePlace) (ty : IntervalType)
  : Interval :=
  mkInterval lbl (normalizeSequencePlace s) (normalizeSequencePlace e) ty.

(** Identity of two intervals, as removal by identity tests it. *)
Definition Interval_eq_dec (a b : Interval) : {a = b} + {a <> b}.
Proof.
  decide equality.
  - decide equality.
  - decide equality. decide equality. apply Z.eq_dec.
  - decide equality. decide equality. apply Z.eq_dec.
  - apply string_dec.
Defined.

(** ** The augmented interval tree

    intervalTree.ts and the balanced tree under its [intervals] field are
    not among the sources; this module models them from the spec: an
    ordered, balanced, augmented binary search tree keyed by [compare]. *)

Module IntervalTree.

(** Modelled from the spec: the payload of a node, one stored interval with
    the maximum end of the node's subtree and the subtree's height. *)
Record IntervalNode : Type := mkNode {
  key : Interval;
  maxEnd : Place;
  height : Z
}.

(** Modelled from the spec: a node with its left and right child links. *)
Inductive Tree : Type :=
| Leaf
| Bin (l : Tree) (n : IntervalNode) (r : Tree).

(** Modelled from the spec: [intervals.isEmpty()]. *)
Definition isEmpty (t : Tree) : bool :=
  match t with
  | Leaf => true
  | Bin _ _ _ => false
  end.

(** The height stored at the root. *)
Definition heightOf (t : Tree) : Z :=
  match t with
  | Leaf => 0
  | Bin _ n _ => height n
  end.

(** The later of [p] and the maximum end stored at the root. *)
Definition maxEndWith (t : Tree) (p : Place) : Place :=
  match t with
  | Leaf => p
  | Bin _ n _ => placeMax p (maxEnd n)
  end.

(** Modelled from the spec: a node over two subtrees, with its maximum end
    and height recomputed from them. *)
Definition mk (l : Tree) (k : Interval) (r : Tree) : Tree :=
  Bin l
      (mkNode k (maxEndWith r (maxEndWith l (end_ k)))
              (1 + Z.max (heightOf l) (heightOf r)))
      r.

(** Modelled from the spec: the tree is kept balanced; here by the single
    and double rotations of a height-balanced tree. *)
Definition bal (l : Tree) (k : Interval) (r : Tree) : Tree :=
  if heightOf r + 1 <? heightOf l then
    match l with
    | Leaf => mk l k r
    | Bin ll ln lr =>
        if heightOf lr <=? heightOf ll then mk ll (key ln) (mk lr k r)
        else match lr with
             | Leaf => mk l k r
             | Bin lrl lrn lrr =>
                 mk (mk ll (key ln) lrl) (key lrn) (mk lrr k r)
             end
    end
  else if heightOf l + 1 <? heightOf r then
    match r with
    | Leaf => mk l k r
    | Bin rl rn rr =>
        if heightOf rl <=? heightOf rr then mk (mk l k rl) (key rn) rr
        else match rl with
             | Leaf => mk l k r
             | Bin rll rln rlr =>
                 mk (mk l k rll) (key rln) (mk rlr (key rn) rr)
             end
    end
  else mk l k r.

(** Modelled from the spec: [put] places an interval by [compare]; ties go
    consistently to one side, here to the right.  Whether the interval is
    already stored is not looked at. *)
Fixpoint put (x : Interval) (t : Tree) : Tree :=
  match t with
  | Leaf => mk Leaf x Leaf
  | Bin l n r =>
      if compare x (key n) <? 0
      then bal (put x l) (key n) r
      else bal l (key n) (put x r)
  end.

(** Modelled from the spec: the tree [Bin l k r] without its least node, and
    that node's key. *)
Fixpoint removeMin (l : Tree) (k : Interval) (r : Tree) : Tree * Interval :=
  match l with
  | Leaf => (r, k)
  | Bin ll ln lr =>
      let (l', m) := removeMin ll (key ln) lr in (bal l' k r, m)
  end.

(** Modelled from the spec: two subtrees joined after their parent is
    gone. *)
Definition merge (l r : Tree) : Tree :=
  match l, r with
  | Leaf, _ => r
  | _, Leaf => l
  | _, Bin rl rn rr => let (r', m) := removeMin rl (key rn) rr in bal l m r'
  end.

(** Modelled from the spec: [removeExisting] removes by identity.  The
    search follows [compare] and, inside a run of ties, looks on both sides.
    Removing an interval that is not in the tree (never added, or already
    removed) is a caller error: the removal fails, here [None], and the
    tree stays as it was. *)
Fixpoint removeExisting (x : Interval) (t : Tree) : option Tree :=
  match t with
  | Leaf => None
  | Bin l n r =>
      let c := compare x (key n) in
      if c <? 0 then
        option_map (fun l' => bal l' (key n) r) (removeExisting x l)
      else if 0 <? c then
        option_map (fun r' => bal l (key n) r') (removeExisting x r)
      else if Interval_eq_dec x (key n) then Some (merge l r)
      else
        match removeExisting x l with
        | Some l' => Some (bal l' (key n) r)
        | None => option_map (fun r' => bal l (key n) r') (removeExisting x r)
        end
  end.

(** Modelled from the spec: [map] visits every stored interval once, in
    order; [fn] updates the state the caller's callback closes over. *)
Fixpoint map {S : Type} (fn : Interval -> S -> S) (t : Tree) (s : S) : S :=
  match t with
  | Leaf => s
  | Bin l n r => map fn r (fn (key n) (map fn l s))
  end.

(** Modelled from the spec: [mapBackward] visits every stored interval once,
    in reverse order. *)
Fixpoint mapBackward {S : Type} (fn : Interval -> S -> S) (t : Tree) (s : S) : S :=
  match t with
  | Leaf => s
  | Bin l n r => mapBackward fn l (fn (key n) (mapBackward fn r s))
  end.

(** Modelled from the spec: [walkExactMatchesForward], the pruned in-order
    walk.  At each node [compareFn] is evaluated once; the left subtree is
    entered when [continueLeftFn] accepts the result, the node is visited
    when it is an exact match (the result is zero), the right subtree is
    entered when [continueRightFn] accepts. *)
Fixpoint walkExactMatchesForward {S : Type}
    (compareFn : IntervalNode -> Z) (actionFn : IntervalNode -> S -> S)
    (continueLeftFn continueRightFn : Z -> bool) (t : Tree) (s : S) : S :=
  match t with
  | Leaf => s
  | Bin l n r =>
      let result := compareFn n in
      let s1 := if continueLeftFn result
                then walkExactMatchesForward compareFn actionFn
                       continueLeftFn continueRightFn l s
                else s in
      let s2 := if result =? 0 then actionFn n s1 else s1 in
      if continueRightFn result
      then walkExactMatchesForward compareFn actionFn
             continueLeftFn continueRightFn r s2
      else s2
  end.

(** Modelled from the spec: [walkExactMatchesBackward], the same walk from
    right to left. *)
Fixpoint walkExactMatchesBackward {S : Type}
    (compareFn : IntervalNode -> Z) (actionFn : IntervalNode -> S -> S)
    (continueLeftFn continueRightFn : Z -> bool) (t : Tree) (s : S) : S :=
  match t with
  | Leaf => s
  | Bin l n r =>
      let result := compareFn n in
      let s1 := if continueRightFn result
                then walkExactMatchesBackward compareFn actionFn
                       continueLeftFn continueRightFn r s
                else s in
      let s2 := if result =? 0 then actionFn n s1 else s1 in
      if continueLeftFn result
      then walkExactMatchesBackward compareFn actionFn
             continueLeftFn continueRightFn l s2
      else s2
  end.

(** Modelled from the spec: [match], the overlap search with subtree
    pruning.  A subtree whose maximum end lies before the probe's start is
    skipped; the right subtree of a node that starts after the probe's end
    is skipped; a visited node is returned when its key overlaps the
    probe. *)
Fixpoint match_ (x : Interval) (t : Tree) : list IntervalNode :=
  match t with
  | Leaf => []
  | Bin l n r =>
      if comparePlace (maxEnd n) (start x) <? 0 then []
      else
        match_ x l
        ++ (if overlaps (key n) x then [n] else [])
        ++ (if 0 <? comparePlace (start (key n)) (end_ x) then [] else match_ x r)
  end.

(** The keys of the tree, left to right. *)
Fixpoint inorder (t : Tree) : list Interval :=
  match t with
  | Leaf => []
  | Bin l n r => inorder l ++ key n :: inorder r
  end.

End IntervalTree.

(** ** The index as a stateful object

    The index owns one interval tree.  Its methods are run in a small monad
    that threads the tree, records every call made on a collaborator (the
    tree or [helpers.create]) and distinguishes a normal return from a
    thrown error. *)

(** The calls the index makes on its tree and on [helpers]. *)
Inductive Call : Type :=
| CallIsEmpty
| CallCreate (lbl : string) (s e : SequencePlace) (ty : IntervalType)
| CallMap
| CallMapBackward
| CallWalkExactMatchesForward
| CallWalkExactMatchesBackward
| CallMatch (probe : Interval)
| CallPut (x : Interval)
| CallRemoveExisting (x : Interval).

(** What a method of the index can change or leave a mark on: the tree it
    owns, and the log of the calls made so far. *)
Record World : Type := mkWorld {
  intervalTree : IntervalTree.Tree;
  calls : list Call
}.

(** How a method ends: it returns a value or it throws. *)
Inductive Completion (A : Type) : Type :=
| Returned (a : A)
| Thrown (msg : string).

Arguments Returned {A} a.
Arguments Thrown {A} msg.

(** A method body: from the world before to its completion and the world
    after. *)
Definition M (A : Type) : Type := World -> Completion A * World.

(** [return a]. *)
Definition ret {A : Type} (a : A) : M A := fun w => (Returned a, w).

(** Sequencing: a thrown error skips the rest. *)
Definition bind {A B : Type} (m : M A) (f : A -> M B) : M B :=
  fun w =>
    match m w with
    | (Returned a, w') => f a w'
    | (Thrown msg, w') => (Thrown msg, w')
    end.

Notation "x <- m ;; k" := (bind m (fun x => k))
  (at level 61, m at next level, right associativity).

(** Appends a call to the log. *)
Definition record (c : Call) (w : World) : World :=
  mkWorld (intervalTree w) (calls w ++ [c]).

(** A call that only reads the tree. *)
Definition readTree {A : Type} (c : Call) (f : IntervalTree.Tree -> A) : M A :=
  fun w => (Returned (f (intervalTree w)), record c w).

(** A call that may replace the tree. *)
Definition updateTree (c : Call) (f : IntervalTree.Tree -> IntervalTree.Tree)
  : M unit :=
  fun w => (Returned tt, mkWorld (f (intervalTree w)) (calls w ++ [c])).

(** The error the tree raises when asked to remove an interval it does not
    hold. *)
Definition intervalNotFound : string := "interval not found in the tree".

(** A call that replaces the tree or, when the tree method fails, throws
    and leaves the tree as it was. *)
Definition updateTreeOrThrow (c : Call)
    (f : IntervalTree.Tree -> option IntervalTree.Tree) (err : string)
  : M unit :=
  fun w =>
    match f (intervalTree w) with
    | Some t' => (Returned tt, mkWorld t' (calls w ++ [c]))
    | None => (Thrown err, record c w)
    end.

(** [this.helpers.create(...)]. *)
Definition helpers_create (lbl : string) (s e : SequencePlace)
    (ty : IntervalType) : M Interval :=
  fun w => (Returned (create lbl s e ty), record (CallCreate lbl s e ty) w).

(** [a || b] where [b] has effects: [b] runs only when [a] is false. *)
Definition orElseM (a : bool) (b : M bool) : M bool :=
  if a then ret true else b.

(** [x ?? d]. *)
Definition nullish {A : Type} (x : option A) (d : A) : A :=
  match x with
  | Some v => v
  | None => d
  end.

(** [results.push(x)]. *)
Definition push (results : list Interval) (x : Interval) : list Interval :=
  results ++ [x].

(** ** OverlappingIntervalsIndex *)

(** [gatherIterationResults(results, iteratesForward, start?, end?)]: the
    array [results] is mutated in place; the model returns its final
    contents. *)
Definition gatherIterationResults (results : list Interval)
    (iteratesForward : bool) (start_ end_ : option SequencePlace)
  : M (list Interval) :=
  empty <- readTree CallIsEmpty IntervalTree.isEmpty ;;
  if empty then ret results
  else
    match start_, end_ with
    | None, None =>
        if iteratesForward
        then readTree CallMap
               (fun t => IntervalTree.map (fun interval rs => push rs interval) t results)
        else readTree CallMapBackward
               (fun t => IntervalTree.mapBackward
                           (fun interval rs => push rs interval) t results)
    | _, _ =>
        transientInterval <-
          helpers_create "transient" (nullish start_ PlaceStart)
                         (nullish end_ PlaceEnd) Transient ;;
        match start_ with
        | None =>
            let fn := fun interval rs =>
              if compareEnd transientInterval interval =? 0
              then push rs interval else rs in
            if iteratesForward
            then readTree CallMap (fun t => IntervalTree.map fn t results)
            else readTree CallMapBackward
                   (fun t => IntervalTree.mapBackward fn t results)
        | Some _ =>
            let compareFn :=
              match end_ with
              | None => fun node =>
                  compareStart transientInterval (IntervalTree.key node)
              | Some _ => fun node =>
                  compare transientInterval (IntervalTree.key node)
              end in
            let continueLeftFn := fun cmpResult => cmpResult <=? 0 in
            let continueRightFn := fun cmpResult => cmpResult >=? 0 in
            let actionFn := fun node rs => push rs (IntervalTree.key node) in
            if iteratesForward
            then readTree CallWalkExactMatchesForward
                   (fun t => IntervalTree.walkExactMatchesForward
                               compareFn actionFn continueLeftFn continueRightFn
                               t results)
            else readTree CallWalkExactMatchesBackward
                   (fun t => IntervalTree.walkExactMatchesBackward
                               compareFn actionFn continueLeftFn continueRightFn
                               t results)
        end
    end.

(** The inversion test of [findOverlappingIntervals], on the two normalized
    places. *)
Definition invertedSearchInterval (startPos : Z) (startSide : Side)
    (endPos : Z) (endSide : Side) : bool :=
  (negb (startPos =? -1) && negb (endPos =? -1) && (endPos <? startPos))
  || ((startPos =? -1) && Side_eqb startSide Before
      && negb ((endPos =? -1) && Side_eqb endSide Before))
  || ((endPos =? -1) && Side_eqb endSide After
      && negb ((startPos =? -1) && Side_eqb startSide After)).

(** [findOverlappingIntervals(start, end)]. *)
Definition findOverlappingIntervals (start_ end_ : SequencePlace)
  : M (list Interval) :=
  let startPos := pos (normalizeSequencePlace start_) in
  let startSide := side (normalizeSequencePlace start_) in
  let endPos := pos (normalizeSequencePlace end_) in
  let endSide := side (normalizeSequencePlace end_) in
  let inverted := invertedSearchInterval startPos startSide endPos endSide in
  stop <- orElseM inverted (readTree CallIsEmpty IntervalTree.isEmpty) ;;
  if stop then ret []
  else
    transientInterval <- helpers_create "transient" start_ end_ Transient ;;
    overlappingIntervalNodes <-
      readTree (CallMatch transientInterval)
               (IntervalTree.match_ transientInterval) ;;
    ret (List.map IntervalTree.key overlappingIntervalNodes).

(** [remove(interval)]: a bare call of the tree's [removeExisting]; an
    error of the tree is not caught. *)
Definition remove (interval : Interval) : M unit :=
  updateTreeOrThrow (CallRemoveExisting interval)
                    (IntervalTree.removeExisting interval) intervalNotFound.

(** [add(interval)]. *)
Definition add (interval : Interval) : M unit :=
  updateTree (CallPut interval) (IntervalTree.put interval).

(** ** Histories of an index

    Every state an index can be in is reached from the empty index by a
    sequence of [add] and [remove] calls. *)

(** One mutation of the index. *)
Inductive IndexOp : Type :=
| OpAdd (i : Interval)
| OpRemove (i : Interval).

(** The method a mutation stands for. *)
Definition runOp (op : IndexOp) : M unit :=
  match op with
  | OpAdd i => add i
  | OpRemove i => remove i
  end.

(** A fresh index: [new IntervalTree()] and no call made yet. *)
Definition emptyWorld : World := mkWorld IntervalTree.Leaf [].

(** The world a fresh index is in after a history of mutations. *)
Definition worldAfter (ops : list IndexOp) : World :=
  fold_left (fun w op => snd (runOp op w)) ops emptyWorld.

(** The tree a fresh index holds after a history of mutations. *)
Definition treeAfter (ops : list IndexOp) : IntervalTree.Tree :=
  intervalTree (worldAfter ops).

(** A list without the first occurrence of [x], if there is one. *)
Fixpoint removeOne (x : Interval) (l : list Interval) : list Interval :=
  match l with
  | [] => []
  | y :: l' => if Interval_eq_dec x y then l' else y :: removeOne x l'
  end.

(** The intervals a history leaves registered, as a bag: [add] registers
    one more, [remove] takes one occurrence away when there is one. *)
Definition registered (ops : list IndexOp) : list Interval :=
  fold_left (fun acc op =>
               match op with
               | OpAdd i => i :: acc
               | OpRemove i => removeOne i acc
               end) ops [].

(** The overlap predicate of a query [start, end] on raw places. *)
Definition overlapsRange (s e : SequencePlace) (i : Interval) : bool :=
  (comparePlace (start i) (normalizeSequencePlace e) <=? 0)
  && (comparePlace (end_ i) (normalizeSequencePlace s) >=? 0).

(** Non-decreasing under [compare]. *)
Definition ascending (l : list Interval) : Prop :=
  StronglySorted (fun a b => compare a b <= 0) l.

(** Non-increasing under [compare]. *)
Definition descending (l : list Interval) : Prop :=
  StronglySorted (fun a b => compare b a <= 0) l.

(** Where [put] places a new interval in the in-order sequence: after every
    interval it ties with, before the first one it is strictly less than. *)
Fixpoint ins (x : Interval) (l : list Interval) : list Interval :=
  match l with
  | [] => [x]
  | y :: l' => if compare x y <? 0 then x :: y :: l' else y :: ins x l'
  end.

(** [augmented t]: at every node, no interval of the node's subtree ends
    after the node's [maxEnd]. *)
Fixpoint augmented (t : IntervalTree.Tree) : Prop :=
  match t with
  | IntervalTree.Leaf => True
  | IntervalTree.Bin l n r =>
      augmented l /\ augmented r /\
      Forall (fun y => comparePlace (end_ y) (IntervalTree.maxEnd n) <= 0)
             (IntervalTree.inorder l ++ IntervalTree.key n :: IntervalTree.inorder r)
  end.

(** A probe comparator is monotone when it agrees with the order of the
    tree: right of a key the probe lies before, the probe still lies before;
    left of a key the probe lies after, the probe still lies after. *)
Definition probeMonotone (c : Interval -> Z) : Prop :=
  (forall a b, compare a b <= 0 -> c a < 0 -> c b < 0) /\
  (forall a b, compare a b <= 0 -> 0 < c b -> 0 < c a).

(** The action of the pruned walks of [gatherIterationResults]. *)
Definition pushKey (node : IntervalTree.IntervalNode) (rs : list Interval)
  : list Interval :=
  push rs (IntervalTree.key node).

(** A sequence as a traversal in the given direction lists it. *)
Definition inDirection (iteratesForward : bool) (l : list Interval)
  : list Interval :=
  if iteratesForward then l else rev l.

(** The position order on normalized places. *)
Definition placeLe (a b : Place) : Prop := comparePlace a b <= 0.

(** The inversion test as the three cases it is made of. *)
Definition invertedRange (a b : Place) : Prop :=
  (pos a <> -1 /\ pos b <> -1 /\ pos b < pos a) \/
  (pos a = -1 /\ side a = Before /\ ~ (pos b = -1 /\ side b = Before)) \/
  (pos b = -1 /\ side b = After /\ ~ (pos a = -1 /\ side a = After)).

(** The probe of an overlap query. *)
Definition searchProbe (s e : SequencePlace) : Interval :=
  create "transient" s e Transient.

(** A query that went all the way: it asked the tree whether it is empty,
    built the probe and searched the tree with it. *)
Definition searchedTree (s e : SequencePlace) (w : World) : Prop :=
  findOverlappingIntervals s e w =
  (Returned (List.map IntervalTree.key
               (IntervalTree.match_ (searchProbe s e) (intervalTree w))),
   record (CallMatch (searchProbe s e))
     (record (CallCreate "transient" s e Transient) (record CallIsEmpty w))).

(** Sample intervals over plain offsets. *)
Definition sampleInterval (lbl : string) (a b : Z) : Interval :=
  create lbl (PlaceNumber a) (PlaceNumber b) Persistent.

(** The intervals [1,3], [4,6] and [2,5], added in this order. *)
Definition sampleHistory : list IndexOp :=
  [OpAdd (sampleInterval "a" 1 3); OpAdd (sampleInterval "b" 4 6);
   OpAdd (sampleInterval "c" 2 5)].

(** Sorted the way a traversal in the given direction is. *)
Definition inOrder (iteratesForward : bool) (l : list Interval) : Prop :=
  if iteratesForward then ascending l else descending l.

(** Calls that only read the tree or build a value. *)
Definition readOnly (c : Call) : bool :=
  match c with
  | CallPut _ | CallRemoveExisting _ => false
  | _ => true
  end.

(** ** The other methods of the index *)

Module OverlappingIntervalsIndex.

(** [map(fn)]: hands [fn] to the tree's in-order traversal; [fn] updates
    the state its closure holds. *)
Definition map {S : Type} (fn : Interval -> S -> S) (s : S) : M S :=
  readTree CallMap (fun t => IntervalTree.map fn t s).

End OverlappingIntervalsIndex.

(** The test an interval passes to be gathered, for each combination of
    filters of [gatherIterationResults]: none, [compareEnd], [compareStart]
    or [compare] of the transient interval against it. *)
Definition gatherMatches (s e : option SequencePlace) (interval : Interval)
  : bool :=
  let transientInterval :=
    create "transient" (nullish s PlaceStart) (nullish e PlaceEnd) Transient in
  match s, e with
  | None, None => true
  | None, Some _ => compareEnd transientInterval interval =? 0
  | Some _, None => compareStart transientInterval interval =? 0
  | Some _, Some _ => compare transientInterval interval =? 0
  end.

(** * Proofs *)

Lemma Side_eqb_spec (a b : Side) : reflect (a = b) (Side_eqb a b).
Proof. destruct a, b; constructor; congruence. Qed.

(** ** Laws of the comparisons *)

Section ComparisonLaws.

Lemma sign3_refl a : sign3 a a = 0.
Proof. unfold sign3. rewrite Z.ltb_irrefl. reflexivity. Qed.

Lemma sign3_cases a b :
  (a < b /\ sign3 a b = -1) \/ (a = b /\ sign3 a b = 0) \/ (b < a /\ sign3 a b = 1).
Proof.
  unfold sign3.
  destruct (Z.ltb_spec a b); [lia|].
  destruct (Z.ltb_spec b a); lia.
Qed.

(** The three coordinates of a place decide its comparison. *)
Lemma comparePlace_cases a b :
  let ka := (placeClass a, placeOffset a, placeSide a) in
  let kb := (placeClass b, placeOffset b, placeSide b) in
  (comparePlace a b = 0 /\ ka = kb) \/
  (comparePlace a b = -1 /\
     (placeClass a < placeClass b \/
      (placeClass a = placeClass b /\
         (placeOffset a < placeOffset b \/
          (placeOffset a = placeOffset b /\ placeSide a < placeSide b))))) \/
  (comparePlace a b = 1 /\
     (placeClass b < placeClass a \/
      (placeClass a = placeClass b /\
         (placeOffset b < placeOffset a \/
          (placeOffset a = placeOffset b /\ placeSide b < placeSide a))))).
Proof.
  cbv zeta. unfold comparePlace.
  destruct (sign3_cases (placeClass a) (placeClass b)) as [[? E1]|[[? E1]|[? E1]]];
    destruct (sign3_cases (placeOffset a) (placeOffset b)) as [[? E2]|[[? E2]|[? E2]]];
    destruct (sign3_cases (placeSide a) (placeSide b)) as [[? E3]|[[? E3]|[? E3]]];
    rewrite E1, E2, E3; cbn; try (right; left; split; [reflexivity|lia]);
    try (right; right; split; [reflexivity|lia]).
  left. split; [reflexivity|congruence].
Qed.

Lemma comparePlace_refl a : comparePlace a a = 0.
Proof. unfold comparePlace. rewrite !sign3_refl. reflexivity. Qed.

Lemma comparePlace_flip a b : comparePlace b a = - comparePlace a b.
Proof.
  destruct (comparePlace_cases a b) as [[E H]|[[E H]|[E H]]];
    destruct (comparePlace_cases b a) as [[E' H']|[[E' H']|[E' H']]];
    rewrite E, E'; try reflexivity; exfalso;
      try (inversion H; lia); try (inversion H'; lia); lia.
Qed.

Lemma comparePlace_trans a b c :
  comparePlace a b <= 0 -> comparePlace b c <= 0 -> comparePlace a c <= 0.
Proof.
  intros Hab Hbc.
  destruct (comparePlace_cases a b) as [[E H]|[[E H]|[E H]]]; [| |lia];
    destruct (comparePlace_cases b c) as [[E' H']|[[E' H']|[E' H']]]; try lia;
    destruct (comparePlace_cases a c) as [[E'' H'']|[[E'' H'']|[E'' H'']]]; try lia;
    exfalso; try (inversion H); try (inversion H'); lia.
Qed.

(** A strict step anywhere in a chain makes the whole chain strict. *)
Lemma comparePlace_trans_lt_l a b c :
  comparePlace a b < 0 -> comparePlace b c <= 0 -> comparePlace a c < 0.
Proof.
  intros Hab Hbc.
  destruct (comparePlace_cases a b) as [[E H]|[[E H]|[E H]]]; try lia;
    destruct (comparePlace_cases b c) as [[E' H']|[[E' H']|[E' H']]]; try lia;
    destruct (comparePlace_cases a c) as [[E'' H'']|[[E'' H'']|[E'' H'']]]; try lia;
    exfalso; try (inversion H'); try (inversion H''); lia.
Qed.

Lemma comparePlace_trans_lt_r a b c :
  comparePlace a b <= 0 -> comparePlace b c < 0 -> comparePlace a c < 0.
Proof.
  intros Hab Hbc.
  destruct (comparePlace_cases a b) as [[E H]|[[E H]|[E H]]]; try lia;
    destruct (comparePlace_cases b c) as [[E' H']|[[E' H']|[E' H']]]; try lia;
    destruct (comparePlace_cases a c) as [[E'' H'']|[[E'' H'']|[E'' H'']]]; try lia;
    exfalso; try (inversion H); try (inversion H''); lia.
Qed.

End ComparisonLaws.

(** ** Laws of the interval comparisons *)

Lemma compare_refl a : compare a a = 0.
Proof.
  unfold compare, compareStart, compareEnd, thenBy.
  rewrite !comparePlace_refl. reflexivity.
Qed.

Lemma compare_flip a b : compare b a = - compare a b.
Proof.
  unfold compare, compareStart, compareEnd, thenBy.
  rewrite (comparePlace_flip (start a) (start b)), (comparePlace_flip (end_ a) (end_ b)).
  destruct (Z.eqb_spec (comparePlace (start a) (start b)) 0) as [E|E].
  - rewrite E. reflexivity.
  - destruct (Z.eqb_spec (- comparePlace (start a) (start b)) 0); [lia|reflexivity].
Qed.

(** [compare] is start-major: it never contradicts [compareStart]. *)
Lemma compare_le_start a b : compare a b <= 0 -> compareStart a b <= 0.
Proof.
  unfold compare, thenBy.
  destruct (Z.eqb_spec (compareStart a b) 0); lia.
Qed.

Lemma compare_trans a b c :
  compare a b <= 0 -> compare b c <= 0 -> compare a c <= 0.
Proof.
  unfold compare, compareStart, compareEnd, thenBy.
  pose proof (comparePlace_trans (start a) (start b) (start c)) as Ts.
  pose proof (comparePlace_trans_lt_l (start a) (start b) (start c)) as Tl.
  pose proof (comparePlace_trans_lt_r (start a) (start b) (start c)) as Tr.
  pose proof (comparePlace_trans (end_ a) (end_ b) (end_ c)) as Te.
  destruct (Z.eqb_spec (comparePlace (start a) (start b)) 0);
    destruct (Z.eqb_spec (comparePlace (start b) (start c)) 0);
    destruct (Z.eqb_spec (comparePlace (start a) (start c)) 0); lia.
Qed.

(** ** Sorted lists of intervals *)

Lemma ascending_app_inv l k r :
  ascending (l ++ k :: r) ->
  ascending l /\ ascending r /\
  Forall (fun y => compare y k <= 0) l /\ Forall (fun y => compare k y <= 0) r.
Proof.
  unfold ascending. induction l as [|a l IH]; simpl; intros H.
  - inversion H; subst. repeat split; auto. constructor.
  - inversion H as [|? ? Hs Hf]; subst.
    destruct (IH Hs) as (Hl & Hr & Fl & Fr).
    rewrite Forall_app in Hf. destruct Hf as [Hfl Hfk].
    inversion Hfk; subst.
    repeat split; auto; constructor; auto.
Qed.

(** Dropping one element keeps a list ascending. *)
Lemma ascending_drop l k r : ascending (l ++ k :: r) -> ascending (l ++ r).
Proof.
  unfold ascending. induction l as [|a l IH]; simpl; intros H.
  - inversion H; auto.
  - inversion H as [|? ? Hs Hf]; subst. constructor; auto.
    rewrite Forall_app in *. destruct Hf as [Hfl Hfk].
    inversion Hfk; auto.
Qed.

Lemma ins_app_lt x l k r :
  compare x k < 0 -> ins x (l ++ k :: r) = ins x l ++ k :: r.
Proof.
  intros Hk. induction l as [|a l IH]; simpl.
  - destruct (Z.ltb_spec (compare x k) 0); [reflexivity|lia].
  - destruct (compare x a <? 0); [reflexivity|].
    rewrite IH. reflexivity.
Qed.

Lemma ins_app_ge x l r :
  Forall (fun y => 0 <= compare x y) l -> ins x (l ++ r) = l ++ ins x r.
Proof.
  induction 1 as [|a l Ha _ IH]; simpl; [reflexivity|].
  destruct (Z.ltb_spec (compare x a) 0); [lia|].
  rewrite IH. reflexivity.
Qed.

Lemma ins_perm x l : Permutation (ins x l) (x :: l).
Proof.
  induction l as [|a l IH]; simpl; [reflexivity|].
  destruct (compare x a <? 0); [reflexivity|].
  rewrite IH. apply perm_swap.
Qed.

Lemma ins_ascending x l : ascending l -> ascending (ins x l).
Proof.
  unfold ascending. induction 1 as [|a l Hs IH Hf]; simpl.
  - repeat constructor.
  - destruct (Z.ltb_spec (compare x a) 0) as [Hlt|Hge].
    + constructor; [constructor; auto|].
      constructor; [lia|].
      eapply Forall_impl; [|exact Hf].
      intros b Hb. cbv beta in *. eapply compare_trans; [|exact Hb]. lia.
    + constructor; auto.
      eapply Permutation_Forall; [symmetry; apply ins_perm|].
      constructor; auto.
      rewrite compare_flip. lia.
Qed.

Lemma removeOne_absent x l : ~ In x l -> removeOne x l = l.
Proof.
  induction l as [|a l IH]; simpl; intros Hn; [reflexivity|].
  destruct (Interval_eq_dec x a) as [->|Hne].
  - exfalso. apply Hn. now left.
  - rewrite IH; [reflexivity|]. intros Hin. apply Hn. now right.
Qed.

Lemma removeOne_present x l : In x l -> Permutation (x :: removeOne x l) l.
Proof.
  induction l as [|a l IH]; simpl; intros Hin; [contradiction|].
  destruct (Interval_eq_dec x a) as [->|Hne]; [reflexivity|].
  destruct Hin as [->|Hin]; [congruence|].
  rewrite perm_swap. constructor. apply IH, Hin.
Qed.

(** Taking an occurrence away commutes with reordering. *)
Lemma removeOne_perm x l m :
  Permutation l (x :: m) -> Permutation (removeOne x l) m.
Proof.
  intros Hp.
  apply Permutation_cons_inv with (a := x).
  rewrite removeOne_present; [exact Hp|].
  eapply Permutation_in; [symmetry; exact Hp|now left].
Qed.

(** ** The tree keeps its keys in order *)

Section TreeOrder.

Import IntervalTree.

(** Rotations do not change the in-order sequence. *)
Lemma inorder_bal l k r : inorder (bal l k r) = inorder l ++ k :: inorder r.
Proof.
  unfold bal.
  destruct (heightOf r + 1 <? heightOf l).
  - destruct l as [|ll ln lr]; [reflexivity|].
    destruct (heightOf lr <=? heightOf ll).
    + simpl. rewrite <- app_assoc. reflexivity.
    + destruct lr as [|lrl lrn lrr]; [reflexivity|].
      simpl. rewrite <- !app_assoc. simpl. rewrite <- app_assoc. reflexivity.
  - destruct (heightOf l + 1 <? heightOf r); [|reflexivity].
    destruct r as [|rl rn rr]; [reflexivity|].
    destruct (heightOf rl <=? heightOf rr).
    + simpl. rewrite <- app_assoc. reflexivity.
    + destruct rl as [|rll rln rlr]; [reflexivity|].
      simpl. rewrite <- !app_assoc. reflexivity.
Qed.

Lemma inorder_put x t :
  ascending (inorder t) -> inorder (put x t) = ins x (inorder t).
Proof.
  induction t as [|l IHl n r IHr]; simpl; intros Hs; [reflexivity|].
  destruct (ascending_app_inv _ _ _ Hs) as (Hl & Hr & Fl & Fr).
  destruct (Z.ltb_spec (compare x (key n)) 0) as [Hlt|Hge];
    rewrite inorder_bal.
  - rewrite IHl by assumption. symmetry. apply ins_app_lt, Hlt.
  - rewrite IHr by assumption.
    rewrite ins_app_ge.
    + simpl. destruct (Z.ltb_spec (compare x (key n)) 0); [lia|reflexivity].
    + eapply Forall_impl; [|exact Fl].
      intros y Hy. cbv beta in *.
      assert (compare (key n) x <= 0) by (rewrite compare_flip; lia).
      pose proof (compare_trans _ _ _ Hy H) as Hyx.
      rewrite compare_flip in Hyx. lia.
Qed.

Lemma inorder_removeMin l k r :
  snd (removeMin l k r) :: inorder (fst (removeMin l k r))
  = inorder l ++ k :: inorder r.
Proof.
  revert k r. induction l as [|ll IHll ln lr _]; intros k r; simpl; [reflexivity|].
  specialize (IHll (key ln) lr).
  destruct (removeMin ll (key ln) lr) as [l' m]. simpl in *.
  rewrite inorder_bal, <- IHll. reflexivity.
Qed.

Lemma inorder_merge l r : inorder (merge l r) = inorder l ++ inorder r.
Proof.
  destruct l as [|ll ln lr]; [reflexivity|].
  destruct r as [|rl rn rr]; [simpl; now rewrite app_nil_r|].
  unfold merge.
  pose proof (inorder_removeMin rl (key rn) rr) as H.
  destruct (removeMin rl (key rn) rr) as [r' m]. simpl in H.
  rewrite inorder_bal, H. reflexivity.
Qed.

(** A removal that succeeds took exactly one occurrence of the interval
    out of the in-order sequence. *)
Lemma removeExisting_found x t t' :
  removeExisting x t = Some t' ->
  exists l1 l2, inorder t = l1 ++ x :: l2 /\ inorder t' = l1 ++ l2.
Proof.
  revert t'. induction t as [|l IHl n r IHr]; simpl; intros t' H; [discriminate|].
  assert (Hleft : forall l', removeExisting x l = Some l' ->
            exists l1 l2, inorder l ++ key n :: inorder r = l1 ++ x :: l2 /\
                          inorder (bal l' (key n) r) = l1 ++ l2).
  { intros l' E. destruct (IHl _ E) as (l1 & l2 & E1 & E2).
    exists l1, (l2 ++ key n :: inorder r).
    rewrite inorder_bal, E1, E2, <- !app_assoc. auto. }
  assert (Hright : forall r', removeExisting x r = Some r' ->
            exists l1 l2, inorder l ++ key n :: inorder r = l1 ++ x :: l2 /\
                          inorder (bal l (key n) r') = l1 ++ l2).
  { intros r' E. destruct (IHr _ E) as (l1 & l2 & E1 & E2).
    exists (inorder l ++ key n :: l1), l2.
    rewrite inorder_bal, E1, E2, <- !app_assoc. auto. }
  destruct (compare x (key n) <? 0).
  - destruct (removeExisting x l) as [l'|]; inversion H; subst. now apply Hleft.
  - destruct (0 <? compare x (key n)).
    + destruct (removeExisting x r) as [r'|]; inversion H; subst. now apply Hright.
    + destruct (Interval_eq_dec x (key n)) as [->|Hne].
      * inversion H; subst. exists (inorder l), (inorder r).
        rewrite inorder_merge. auto.
      * destruct (removeExisting x l) as [l'|].
        -- inversion H; subst. now apply Hleft.
        -- destruct (removeExisting x r) as [r'|]; inversion H; subst.
           now apply Hright.
Qed.

(** In an ordered tree the search by [compare] does not miss a stored
    interval: the removal of a stored interval does not fail. *)
Lemma removeExisting_finds x t :
  ascending (inorder t) -> In x (inorder t) -> removeExisting x t <> None.
Proof.
  induction t as [|l IHl n r IHr]; simpl; intros Hs Hin; [contradiction|].
  destruct (ascending_app_inv _ _ _ Hs) as (Hl & Hr & Fl & Fr).
  rewrite Forall_forall in Fl, Fr.
  apply in_app_or in Hin.
  destruct (Z.ltb_spec (compare x (key n)) 0) as [Hlt|Hge].
  - assert (In x (inorder l)) as Hx.
    { destruct Hin as [|[E|Hin]]; auto.
      - subst. rewrite compare_refl in Hlt. lia.
      - specialize (Fr _ Hin). rewrite compare_flip in Fr. lia. }
    specialize (IHl Hl Hx).
    destruct (removeExisting x l) as [l'|]; [discriminate|congruence].
  - destruct (Z.ltb_spec 0 (compare x (key n))) as [Hgt|Hle].
    + assert (In x (inorder r)) as Hx.
      { destruct Hin as [Hin|[E|]]; auto.
        - specialize (Fl _ Hin). lia.
        - subst. rewrite compare_refl in Hgt. lia. }
      specialize (IHr Hr Hx).
      destruct (removeExisting x r) as [r'|]; [discriminate|congruence].
    + destruct (Interval_eq_dec x (key n)) as [E|Hne]; [discriminate|].
      destruct Hin as [Hin|[E|Hin]].
      * specialize (IHl Hl Hin).
        destruct (removeExisting x l) as [l'|]; [discriminate|congruence].
      * congruence.
      * specialize (IHr Hr Hin).
        destruct (removeExisting x l) as [l'|]; [discriminate|].
        destruct (removeExisting x r) as [r'|]; [discriminate|congruence].
Qed.

End TreeOrder.

(** ** The augmentation bounds every end of the subtree *)

Section TreeAugmentation.

Import IntervalTree.

Lemma placeMax_l a b : comparePlace a (placeMax a b) <= 0.
Proof.
  unfold placeMax. destruct (Z.ltb_spec (comparePlace a b) 0); [lia|].
  rewrite comparePlace_refl. lia.
Qed.

Lemma placeMax_r a b : comparePlace b (placeMax a b) <= 0.
Proof.
  unfold placeMax. destruct (Z.ltb_spec (comparePlace a b) 0).
  - rewrite comparePlace_refl. lia.
  - rewrite comparePlace_flip. lia.
Qed.

Lemma maxEndWith_ge t p : comparePlace p (maxEndWith t p) <= 0.
Proof.
  destruct t; simpl; [rewrite comparePlace_refl; lia|apply placeMax_l].
Qed.

Lemma maxEndWith_bounds t p :
  augmented t ->
  Forall (fun y => comparePlace (end_ y) (maxEndWith t p) <= 0) (inorder t).
Proof.
  destruct t as [|l n r]; simpl; [constructor|].
  intros (_ & _ & F).
  eapply Forall_impl; [|exact F].
  intros y Hy. cbv beta in *.
  eapply comparePlace_trans; [exact Hy|apply placeMax_r].
Qed.

Lemma augmented_mk l k r : augmented l -> augmented r -> augmented (mk l k r).
Proof.
  intros Hl Hr. simpl. repeat split; auto.
  rewrite Forall_app. split; [|constructor].
  - eapply Forall_impl; [|apply (maxEndWith_bounds l (end_ k) Hl)].
    intros y Hy. cbv beta in *.
    eapply comparePlace_trans; [exact Hy|apply maxEndWith_ge].
  - eapply comparePlace_trans; apply maxEndWith_ge.
  - apply maxEndWith_bounds, Hr.
Qed.

Lemma augmented_bal l k r : augmented l -> augmented r -> augmented (bal l k r).
Proof.
  intros Hl Hr. unfold bal.
  destruct (heightOf r + 1 <? heightOf l).
  - destruct l as [|ll ln lr]; [now apply augmented_mk|].
    pose proof Hl as (Hll & Hlr & _).
    destruct (heightOf lr <=? heightOf ll).
    + repeat apply augmented_mk; auto.
    + destruct lr as [|lrl lrn lrr]; [now apply augmented_mk|].
      destruct Hlr as (Hlrl & Hlrr & _).
      repeat apply augmented_mk; auto.
  - destruct (heightOf l + 1 <? heightOf r); [|now apply augmented_mk].
    destruct r as [|rl rn rr]; [now apply augmented_mk|].
    pose proof Hr as (Hrl & Hrr & _).
    destruct (heightOf rl <=? heightOf rr).
    + repeat apply augmented_mk; auto.
    + destruct rl as [|rll rln rlr]; [now apply augmented_mk|].
      destruct Hrl as (Hrll & Hrlr & _).
      repeat apply augmented_mk; auto.
Qed.

Lemma augmented_put x t : augmented t -> augmented (put x t).
Proof.
  induction t as [|l IHl n r IHr]; simpl.
  - intros _. repeat split; auto. repeat constructor.
    rewrite comparePlace_refl. lia.
  - intros (Hl & Hr & _).
    destruct (compare x (key n) <? 0); apply augmented_bal; auto.
Qed.

Lemma augmented_removeMin l k r :
  augmented l -> augmented r -> augmented (fst (removeMin l k r)).
Proof.
  revert k r. induction l as [|ll IHll ln lr _]; intros k r Hl Hr; simpl; [assumption|].
  destruct Hl as (Hll & Hlr & _).
  specialize (IHll (key ln) lr Hll Hlr).
  destruct (removeMin ll (key ln) lr) as [l' m]. simpl in *.
  now apply augmented_bal.
Qed.

Lemma augmented_merge l r : augmented l -> augmented r -> augmented (merge l r).
Proof.
  intros Hl Hr.
  destruct l as [|ll ln lr]; [assumption|].
  destruct r as [|rl rn rr]; [assumption|].
  unfold merge.
  pose proof Hr as (Hrl & Hrr & _).
  pose proof (augmented_removeMin rl (key rn) rr Hrl Hrr) as H.
  destruct (removeMin rl (key rn) rr) as [r' m]. simpl in H.
  now apply augmented_bal.
Qed.

Lemma augmented_removeExisting x t t' :
  removeExisting x t = Some t' -> augmented t -> augmented t'.
Proof.
  revert t'. induction t as [|l IHl n r IHr]; simpl; intros t' H Ht;
    [discriminate|].
  pose proof Ht as (Hl & Hr & _).
  destruct (compare x (key n) <? 0).
  - destruct (removeExisting x l) as [l'|]; inversion H; subst.
    apply augmented_bal; eauto.
  - destruct (0 <? compare x (key n)).
    + destruct (removeExisting x r) as [r'|]; inversion H; subst.
      apply augmented_bal; eauto.
    + destruct (Interval_eq_dec x (key n)).
      * inversion H; subst. now apply augmented_merge.
      * destruct (removeExisting x l) as [l'|].
        -- inversion H; subst. apply augmented_bal; eauto.
        -- destruct (removeExisting x r) as [r'|]; inversion H; subst.
           apply augmented_bal; eauto.
Qed.

End TreeAugmentation.

(** ** What the traversals and searches of the tree return *)

Section TreeQueries.

Import IntervalTree.

Lemma filter_none {A : Type} (f : A -> bool) (l : list A) :
  Forall (fun y => f y = false) l -> filter f l = [].
Proof.
  induction 1 as [|a l Ha _ IH]; simpl; [reflexivity|].
  rewrite Ha. exact IH.
Qed.

Lemma map_inorder {S : Type} (fn : Interval -> S -> S) t s :
  map fn t s = fold_left (fun acc i => fn i acc) (inorder t) s.
Proof.
  revert s. induction t as [|l IHl n r IHr]; intros s; simpl; [reflexivity|].
  rewrite fold_left_app. simpl. rewrite IHl, IHr. reflexivity.
Qed.

Lemma mapBackward_inorder {S : Type} (fn : Interval -> S -> S) t s :
  mapBackward fn t s = fold_left (fun acc i => fn i acc) (rev (inorder t)) s.
Proof.
  revert s. induction t as [|l IHl n r IHr]; intros s; simpl; [reflexivity|].
  rewrite rev_app_distr. simpl. rewrite <- app_assoc, fold_left_app. simpl.
  rewrite IHl, IHr. reflexivity.
Qed.

Lemma fold_push_if (p : Interval -> bool) l rs :
  fold_left (fun acc i => if p i then push acc i else acc) l rs
  = rs ++ filter p l.
Proof.
  revert rs. induction l as [|a l IH]; intros rs; simpl.
  - now rewrite app_nil_r.
  - rewrite IH. unfold push. destruct (p a); [|reflexivity].
    rewrite <- app_assoc. reflexivity.
Qed.

Lemma fold_push l rs : fold_left (fun acc i => push acc i) l rs = rs ++ l.
Proof.
  revert rs. induction l as [|a l IH]; intros rs; simpl.
  - now rewrite app_nil_r.
  - rewrite IH. unfold push. rewrite <- app_assoc. reflexivity.
Qed.

(** Every node the overlap search returns is a node of the tree. *)
Lemma match_stored x t : incl (List.map key (match_ x t)) (inorder t).
Proof.
  induction t as [|l IHl n r IHr]; simpl; [apply incl_refl|].
  destruct (comparePlace (maxEnd n) (start x) <? 0); [intros y []|].
  rewrite !map_app.
  apply incl_app; [now apply incl_appl|].
  apply incl_appr. apply incl_app.
  - destruct (overlaps (key n) x); [|intros y []].
    intros y [<-|[]]. now left.
  - apply incl_tl.
    destruct (0 <? comparePlace (start (key n)) (end_ x)); [intros y []|exact IHr].
Qed.

(** The overlap search returns exactly the stored intervals that satisfy
    the overlap predicate, in tree order. *)
Lemma match_exact x t :
  augmented t -> ascending (inorder t) ->
  List.map key (match_ x t) = filter (fun i => overlaps i x) (inorder t).
Proof.
  induction t as [|l IHl n r IHr]; simpl; intros Ha Hs; [reflexivity|].
  destruct Ha as (Hal & Har & Hb).
  destruct (ascending_app_inv _ _ _ Hs) as (Hl & Hr & Fl & Fr).
  destruct (Z.ltb_spec (comparePlace (maxEnd n) (start x)) 0) as [Hlt|Hge].
  - symmetry. apply filter_none.
    eapply Forall_impl; [|exact Hb].
    intros y Hy. cbv beta in *. unfold overlaps.
    pose proof (comparePlace_trans_lt_r _ _ _ Hy Hlt).
    destruct (Z.geb_spec (comparePlace (end_ y) (start x)) 0); [lia|].
    apply andb_false_r.
  - rewrite !map_app, filter_app, IHl by assumption. f_equal.
    simpl. destruct (overlaps (key n) x); simpl; [f_equal|].
    all: destruct (Z.ltb_spec 0 (comparePlace (start (key n)) (end_ x))) as [Hgt|Hle];
      [|now apply IHr].
    all: symmetry; apply filter_none;
      eapply Forall_impl; [|exact Fr];
      intros y Hy; cbv beta in *; unfold overlaps;
      apply compare_le_start in Hy; unfold compareStart in Hy;
      assert (comparePlace (end_ x) (start (key n)) < 0) as Hx
        by (rewrite comparePlace_flip; lia);
      pose proof (comparePlace_trans_lt_l _ _ _ Hx Hy) as Hxy;
      rewrite comparePlace_flip in Hxy;
      destruct (Z.leb_spec (comparePlace (start y) (end_ x)) 0); [lia|reflexivity].
Qed.

Lemma compareStart_probeMonotone p : probeMonotone (compareStart p).
Proof.
  split; intros a b Hab H; apply compare_le_start in Hab;
    unfold compareStart in *.
  - eapply comparePlace_trans_lt_l; eauto.
  - rewrite comparePlace_flip in H.
    assert (comparePlace (start b) (start p) < 0) as Hb by lia.
    pose proof (comparePlace_trans_lt_r _ _ _ Hab Hb).
    rewrite comparePlace_flip. lia.
Qed.

Lemma compare_probeMonotone p : probeMonotone (compare p).
Proof.
  split; intros a b Hab H.
  - destruct (Z.lt_ge_cases (compare p b) 0) as [|Hge]; [assumption|exfalso].
    assert (compare b p <= 0) as Hbp by (rewrite compare_flip; lia).
    pose proof (compare_trans _ _ _ Hab Hbp) as Hap.
    rewrite compare_flip in Hap. lia.
  - destruct (Z.lt_ge_cases 0 (compare p a)) as [|Hle]; [assumption|exfalso].
    pose proof (compare_trans p a b) as T.
    lia.
Qed.

Lemma pushKey_eq node rs : pushKey node rs = rs ++ [key node].
Proof. reflexivity. Qed.

(** Moves the results gathered before a walk out of the walk. *)
Ltac walk_out IH t :=
  repeat match goal with
  | |- context [walkExactMatchesForward _ _ _ _ t ?rs] =>
      lazymatch rs with nil => fail | _ => rewrite (IH rs) end
  | |- context [walkExactMatchesBackward _ _ _ _ t ?rs] =>
      lazymatch rs with nil => fail | _ => rewrite (IH rs) end
  end.

Lemma walkForward_app cf cl cr t rs :
  walkExactMatchesForward cf pushKey cl cr t rs
  = rs ++ walkExactMatchesForward cf pushKey cl cr t [].
Proof.
  revert rs. induction t as [|l IHl n r IHr]; intros rs; simpl.
  - now rewrite app_nil_r.
  - destruct (cl (cf n)), (cf n =? 0), (cr (cf n));
      walk_out IHr r; walk_out IHl l; unfold pushKey, push;
      rewrite ?app_nil_r, <- ?app_assoc; reflexivity.
Qed.

Lemma walkBackward_app cf cl cr t rs :
  walkExactMatchesBackward cf pushKey cl cr t rs
  = rs ++ walkExactMatchesBackward cf pushKey cl cr t [].
Proof.
  revert rs. induction t as [|l IHl n r IHr]; intros rs; simpl.
  - now rewrite app_nil_r.
  - destruct (cl (cf n)), (cf n =? 0), (cr (cf n));
      walk_out IHl l; walk_out IHr r; unfold pushKey, push;
      rewrite ?app_nil_r, <- ?app_assoc; reflexivity.
Qed.

(** Splits an inclusion goal along the shape of the walked list. *)
Ltac incl_split IHl IHr :=
  repeat match goal with
  | |- incl (_ ++ _) _ => apply incl_app
  | |- incl (_ :: _) _ => apply incl_cons
  | |- incl nil _ => apply incl_nil_l
  | |- List.In ?x (_ ++ ?x :: _) => apply in_elt
  | |- incl _ (_ ++ _ :: _) =>
      first [ apply incl_appl; exact IHl | apply incl_appr, incl_tl; exact IHr ]
  end.

(** The pruned walk only visits nodes of the tree. *)
Lemma walkForward_stored cf cl cr t :
  incl (walkExactMatchesForward cf pushKey cl cr t []) (inorder t).
Proof.
  induction t as [|l IHl n r IHr]; simpl; [apply incl_refl|].
  destruct (cl (cf n)), (cf n =? 0), (cr (cf n));
    walk_out (walkForward_app cf cl cr r) r; unfold pushKey, push; simpl;
    incl_split IHl IHr.
Qed.

Lemma walkBackward_stored cf cl cr t :
  incl (walkExactMatchesBackward cf pushKey cl cr t []) (inorder t).
Proof.
  induction t as [|l IHl n r IHr]; simpl; [apply incl_refl|].
  destruct (cl (cf n)), (cf n =? 0), (cr (cf n));
    walk_out (walkBackward_app cf cl cr l) l; unfold pushKey, push; simpl;
    incl_split IHl IHr.
Qed.

(** With a monotone probe and the index's two continuation tests, the
    pruned walk misses no exact match: it visits exactly the keys the probe
    compares equal to, in tree order. *)
Lemma walkForward_exact c t :
  probeMonotone c -> ascending (inorder t) ->
  walkExactMatchesForward (fun node => c (key node)) pushKey
    (fun cmpResult => cmpResult <=? 0) (fun cmpResult => cmpResult >=? 0) t []
  = filter (fun i => c i =? 0) (inorder t).
Proof.
  intros [Mlt Mgt]. induction t as [|l IHl n r IHr]; simpl; intros Hs; [reflexivity|].
  destruct (ascending_app_inv _ _ _ Hs) as (Hl & Hr & Fl & Fr).
  specialize (IHl Hl). specialize (IHr Hr).
  assert (Lnone : 0 < c (key n) -> filter (fun i => c i =? 0) (inorder l) = []).
  { intros Hc. apply filter_none. eapply Forall_impl; [|exact Fl].
    intros y Hy. cbv beta in *. specialize (Mgt _ _ Hy Hc).
    destruct (Z.eqb_spec (c y) 0); [lia|reflexivity]. }
  assert (Rnone : c (key n) < 0 -> filter (fun i => c i =? 0) (inorder r) = []).
  { intros Hc. apply filter_none. eapply Forall_impl; [|exact Fr].
    intros y Hy. cbv beta in *. specialize (Mlt _ _ Hy Hc).
    destruct (Z.eqb_spec (c y) 0); [lia|reflexivity]. }
  rewrite filter_app. simpl.
  destruct (Z.leb_spec (c (key n)) 0) as [Hle|Hgt];
    destruct (Z.eqb_spec (c (key n)) 0) as [Heq|Hne];
    destruct (Z.geb_spec (c (key n)) 0) as [Hge|Hlt]; try lia;
    walk_out (walkForward_app (fun node => c (key node))
                (fun cmpResult => cmpResult <=? 0)
                (fun cmpResult => cmpResult >=? 0) r) r;
    rewrite ?pushKey_eq; simpl;
    rewrite ?IHl, ?IHr, ?Lnone, ?Rnone by lia;
    rewrite ?app_nil_r, <- ?app_assoc; reflexivity.
Qed.

Lemma walkBackward_exact c t :
  probeMonotone c -> ascending (inorder t) ->
  walkExactMatchesBackward (fun node => c (key node)) pushKey
    (fun cmpResult => cmpResult <=? 0) (fun cmpResult => cmpResult >=? 0) t []
  = rev (filter (fun i => c i =? 0) (inorder t)).
Proof.
  intros [Mlt Mgt]. induction t as [|l IHl n r IHr]; simpl; intros Hs; [reflexivity|].
  destruct (ascending_app_inv _ _ _ Hs) as (Hl & Hr & Fl & Fr).
  specialize (IHl Hl). specialize (IHr Hr).
  assert (Lnone : 0 < c (key n) -> filter (fun i => c i =? 0) (inorder l) = []).
  { intros Hc. apply filter_none. eapply Forall_impl; [|exact Fl].
    intros y Hy. cbv beta in *. specialize (Mgt _ _ Hy Hc).
    destruct (Z.eqb_spec (c y) 0); [lia|reflexivity]. }
  assert (Rnone : c (key n) < 0 -> filter (fun i => c i =? 0) (inorder r) = []).
  { intros Hc. apply filter_none. eapply Forall_impl; [|exact Fr].
    intros y Hy. cbv beta in *. specialize (Mlt _ _ Hy Hc).
    destruct (Z.eqb_spec (c y) 0); [lia|reflexivity]. }
  rewrite filter_app. simpl.
  destruct (Z.leb_spec (c (key n)) 0) as [Hle|Hgt];
    destruct (Z.eqb_spec (c (key n)) 0) as [Heq|Hne];
    destruct (Z.geb_spec (c (key n)) 0) as [Hge|Hlt]; try lia;
    walk_out (walkBackward_app (fun node => c (key node))
                (fun cmpResult => cmpResult <=? 0)
                (fun cmpResult => cmpResult >=? 0) l) l;
    rewrite ?pushKey_eq; simpl;
    rewrite ?IHl, ?IHr, ?Lnone, ?Rnone by lia;
    rewrite ?rev_app_distr; simpl;
    rewrite ?app_nil_r, <- ?app_assoc; reflexivity.
Qed.

End TreeQueries.

(** ** Every reachable index is ordered and augmented *)

Lemma filter_perm {A : Type} (f : A -> bool) (l m : list A) :
  Permutation l m -> Permutation (filter f l) (filter f m).
Proof.
  induction 1 as [|a l m _ IH|a b l|l m k _ IH1 _ IH2]; simpl.
  - constructor.
  - destruct (f a); [now constructor|assumption].
  - destruct (f a), (f b); try reflexivity. apply perm_swap.
  - now transitivity (filter f m).
Qed.

Lemma descending_rev l : ascending l -> descending (rev l).
Proof.
  unfold ascending, descending.
  induction 1 as [|a l Hs IH Hf]; simpl; [constructor|].
  apply Forall_rev in Hf.
  revert IH Hf. generalize (rev l) as m. clear.
  induction m as [|b m IHm]; simpl; intros Hs Hf.
  - repeat constructor.
  - inversion Hs; subst. inversion Hf; subst.
    constructor; [now apply IHm|].
    rewrite Forall_app. split; [assumption|].
    repeat constructor. assumption.
Qed.

Lemma worldAfter_snoc ops op :
  worldAfter (ops ++ [op]) = snd (runOp op (worldAfter ops)).
Proof. unfold worldAfter. rewrite fold_left_app. reflexivity. Qed.

Lemma registered_snoc ops op :
  registered (ops ++ [op]) =
  match op with
  | OpAdd i => i :: registered ops
  | OpRemove i => removeOne i (registered ops)
  end.
Proof. unfold registered. rewrite fold_left_app. reflexivity. Qed.

(** After any history of [add] and [remove] calls the tree lists its keys
    in ascending order, its augmentation bounds every subtree, and its keys
    are the registered intervals, each as often as it is registered. *)
Lemma history_invariant ops :
  ascending (IntervalTree.inorder (treeAfter ops)) /\
  augmented (treeAfter ops) /\
  Permutation (IntervalTree.inorder (treeAfter ops)) (registered ops).
Proof.
  induction ops as [|op ops IH] using rev_ind.
  - repeat split; simpl; constructor.
  - destruct IH as (Hs & Ha & Hp).
    unfold treeAfter in *. rewrite worldAfter_snoc, registered_snoc.
    destruct op as [i|i]; simpl.
    + rewrite inorder_put by assumption.
      repeat split.
      * now apply ins_ascending.
      * now apply augmented_put.
      * rewrite ins_perm. now constructor.
    + pose proof (removeExisting_found i (intervalTree (worldAfter ops))) as Hfound.
      pose proof (removeExisting_finds i (intervalTree (worldAfter ops)) Hs) as Hfinds.
      pose proof (augmented_removeExisting i (intervalTree (worldAfter ops))) as Haug.
      unfold remove, updateTreeOrThrow.
      destruct (IntervalTree.removeExisting i (intervalTree (worldAfter ops)))
        as [t'|]; simpl in *.
      * destruct (Hfound _ eq_refl) as (l1 & l2 & E1 & E2).
        rewrite E1 in Hs, Hp. rewrite E2.
        repeat split; auto.
        -- eapply ascending_drop; eauto.
        -- symmetry. apply removeOne_perm.
           rewrite <- Hp. symmetry. apply Permutation_middle.
      * repeat split; auto.
        rewrite removeOne_absent; [assumption|].
        intros Hin.
        assert (In i (IntervalTree.inorder (intervalTree (worldAfter ops)))) as Hin'
          by (eapply Permutation_in; [symmetry; exact Hp|exact Hin]).
        now apply Hfinds.
Qed.

(** A range whose start does not lie after its end in the position order
    never trips the inversion test. *)
Lemma ordered_range_not_inverted (a b : Place) :
  placeLe a b -> invertedSearchInterval (pos a) (side a) (pos b) (side b) = false.
Proof.
  unfold placeLe, invertedSearchInterval. intros H.
  destruct (comparePlace_cases a b) as [[E K]|[[E K]|[E K]]]; [| |lia];
    clear H E; revert K;
    unfold placeClass, placeOffset, placeSide;
    destruct a as [pa sa], b as [pb sb]; simpl;
    destruct (Z.eqb_spec pa (-1)), (Z.eqb_spec pb (-1)), sa, sb; simpl;
    intros K; try (inversion K; lia); try lia; try reflexivity;
    destruct (Z.ltb_spec pb pa); try reflexivity; try (inversion K; lia); lia.
Qed.

(** ** Running the two queries *)

Lemma invertedSearchInterval_true (a b : Place) :
  invertedSearchInterval (pos a) (side a) (pos b) (side b) = true <->
  invertedRange a b.
Proof.
  unfold invertedSearchInterval, invertedRange.
  destruct a as [pa sa], b as [pb sb]; simpl.
  destruct (Z.eqb_spec pa (-1)) as [Ea|Ea];
    destruct (Z.eqb_spec pb (-1)) as [Eb|Eb];
    destruct (Z.ltb_spec pb pa) as [Hlt|Hge];
    destruct sa, sb; simpl;
    (split;
     [ intros H; try discriminate;
       first [ left; repeat split; (assumption || lia)
             | right; left; repeat split; (assumption || intros [? ?]; (congruence || lia))
             | right; right; repeat split; (assumption || intros [? ?]; (congruence || lia)) ]
     | intros [(? & ? & ?)|[(? & ? & Hn)|(? & ? & Hn)]]; try reflexivity;
       try congruence; try lia; exfalso; apply Hn; split; (assumption || reflexivity) ]).
Qed.

(** The three ways [findOverlappingIntervals] can run. *)
Lemma findOverlappingIntervals_run (s e : SequencePlace) (w : World) :
  findOverlappingIntervals s e w =
  if invertedSearchInterval (pos (normalizeSequencePlace s))
       (side (normalizeSequencePlace s)) (pos (normalizeSequencePlace e))
       (side (normalizeSequencePlace e))
  then (Returned [], w)
  else if IntervalTree.isEmpty (intervalTree w)
  then (Returned [], record CallIsEmpty w)
  else (Returned (List.map IntervalTree.key
                    (IntervalTree.match_ (searchProbe s e) (intervalTree w))),
        record (CallMatch (searchProbe s e))
          (record (CallCreate "transient" s e Transient)
             (record CallIsEmpty w))).
Proof.
  unfold findOverlappingIntervals, bind, orElseM, readTree, helpers_create, ret.
  destruct (invertedSearchInterval _ _ _ _); [reflexivity|].
  destruct (IntervalTree.isEmpty (intervalTree w)); reflexivity.
Qed.

Lemma record_neq c w : record c w <> w.
Proof.
  intros H. apply (f_equal calls) in H. simpl in H.
  apply (f_equal (@List.length Call)) in H. rewrite List.length_app in H. simpl in H. lia.
Qed.

(** C2.  [findOverlappingIntervals] returns the empty array at once,
    leaving the tree as it is and making no call on it, exactly when the
    normalized range is inverted: both offsets are resolved and the end's
    offset is smaller than the start's; or the start is [(-1, Before)] and
    the end is not; or the end is [(-1, After)] and the start is not. *)
Theorem findOverlappingIntervals_inverted_iff (s e : SequencePlace) (w : World) :
  let a := normalizeSequencePlace s in
  let b := normalizeSequencePlace e in
  findOverlappingIntervals s e w = (Returned [], w) <->
  ((pos a <> -1 /\ pos b <> -1 /\ pos b < pos a) \/
   (pos a = -1 /\ side a = Before /\ ~ (pos b = -1 /\ side b = Before)) \/
   (pos b = -1 /\ side b = After /\ ~ (pos a = -1 /\ side a = After))).
Proof.
  intros a b. change (findOverlappingIntervals s e w = (Returned [], w) <->
                      invertedRange a b). subst a b.
  rewrite <- invertedSearchInterval_true, findOverlappingIntervals_run.
  destruct (invertedSearchInterval _ _ _ _); [tauto|].
  split; [|discriminate].
  destruct (IntervalTree.isEmpty (intervalTree w)); intros H; exfalso;
    apply (f_equal snd) in H; simpl in H.
  - eapply record_neq; eauto.
  - apply (f_equal calls) in H. simpl in H.
    apply (f_equal (@List.length Call)) in H.
    rewrite !List.length_app in H. simpl in H. lia.
Qed.

(** C3, as stated, fails.  The start [(-1, Before)] with the resolved end 5
    on an index that holds [0, 9]: the query takes the early return of the
    inversion test, makes no call and returns the empty array; it builds no
    probe and does not search the tree. *)
Lemma start_before_sentinel_takes_early_return :
  normalizeSequencePlace (PlaceInterior (-1) Before) = mkPlace (-1) Before /\
  0 <= pos (normalizeSequencePlace (PlaceNumber 5)) /\
  IntervalTree.isEmpty
    (intervalTree (worldAfter [OpAdd (sampleInterval "i" 0 9)])) = false /\
  findOverlappingIntervals (PlaceInterior (-1) Before) (PlaceNumber 5)
    (worldAfter [OpAdd (sampleInterval "i" 0 9)])
  = (Returned [], worldAfter [OpAdd (sampleInterval "i" 0 9)]) /\
  ~ searchedTree (PlaceInterior (-1) Before) (PlaceNumber 5)
      (worldAfter [OpAdd (sampleInterval "i" 0 9)]).
Proof.
  repeat split; try reflexivity; try (simpl; lia).
  unfold searchedTree. vm_compute. discriminate.
Qed.

(** C3, amended.  In the code [(-1, Before)] is the end of the sequence and
    [(-1, After)] its start.  On a non-empty tree, with an end that
    normalizes to a resolved offset, a query whose start normalizes to
    [(-1, After)] does not take the early return: it builds a probe and
    searches the tree; a query whose start normalizes to [(-1, Before)]
    takes the early return and makes no call. *)
Theorem sentinel_start_with_resolved_end (s e : SequencePlace) (w : World) :
  pos (normalizeSequencePlace s) = -1 ->
  0 <= pos (normalizeSequencePlace e) ->
  IntervalTree.isEmpty (intervalTree w) = false ->
  match side (normalizeSequencePlace s) with
  | After => searchedTree s e w
  | Before => findOverlappingIntervals s e w = (Returned [], w)
  end.
Proof.
  intros Hs He Hne. unfold searchedTree.
  rewrite findOverlappingIntervals_run, Hne.
  unfold invertedSearchInterval. rewrite Hs.
  destruct (Z.eqb_spec (pos (normalizeSequencePlace e)) (-1)) as [E|E]; [lia|].
  destruct (side (normalizeSequencePlace s)); simpl; reflexivity.
Qed.

(** On the sample index: from the start of the sequence to 5 the tree is
    searched; from the end of the sequence to 5 nothing is. *)
Lemma sentinel_start_with_resolved_end_witness :
  searchedTree PlaceStart (PlaceNumber 5) (worldAfter sampleHistory) /\
  findOverlappingIntervals PlaceEnd (PlaceNumber 5) (worldAfter sampleHistory)
  = (Returned [], worldAfter sampleHistory).
Proof.
  split.
  - apply (sentinel_start_with_resolved_end PlaceStart (PlaceNumber 5)
             (worldAfter sampleHistory)); [reflexivity|simpl; lia|reflexivity].
  - apply (sentinel_start_with_resolved_end PlaceEnd (PlaceNumber 5)
             (worldAfter sampleHistory)); [reflexivity|simpl; lia|reflexivity].
Defined.

(** ** gatherIterationResults *)

(** The guard at the head of [gatherIterationResults]. *)
Lemma gatherIterationResults_guard results iteratesForward s e w :
  IntervalTree.isEmpty (intervalTree w) = true ->
  gatherIterationResults results iteratesForward s e w
  = (Returned results, record CallIsEmpty w).
Proof.
  intros Hempty.
  unfold gatherIterationResults, bind, readTree. now rewrite Hempty.
Qed.

(** C10.  On an empty tree [gatherIterationResults] returns at once, for
    every start, end and direction: the results are unchanged, and the only
    call made is the emptiness check, so no transient probe is built. *)
Theorem gatherIterationResults_empty (results : list Interval)
    (iteratesForward : bool) (s e : option SequencePlace) (w : World) :
  IntervalTree.isEmpty (intervalTree w) = true ->
  gatherIterationResults results iteratesForward s e w
  = (Returned results, mkWorld (intervalTree w) (calls w ++ [CallIsEmpty])).
Proof.
  intros Hempty.
  unfold gatherIterationResults, bind, readTree, record.
  destruct (IntervalTree.isEmpty (intervalTree w)); [reflexivity|discriminate].
Qed.

(** On a fresh index the results handed in come back as they were. *)
Lemma gatherIterationResults_empty_witness :
  gatherIterationResults [sampleInterval "kept" 0 1] false
    (Some (PlaceNumber 2)) (Some PlaceEnd) emptyWorld
  = (Returned [sampleInterval "kept" 0 1],
     mkWorld IntervalTree.Leaf [CallIsEmpty]).
Proof.
  apply (gatherIterationResults_empty [sampleInterval "kept" 0 1] false
           (Some (PlaceNumber 2)) (Some PlaceEnd) emptyWorld).
  reflexivity.
Defined.

Lemma inDirection_inOrder iteratesForward l :
  ascending l -> inOrder iteratesForward (inDirection iteratesForward l).
Proof.
  destruct iteratesForward; simpl; [trivial|apply descending_rev].
Qed.

Lemma ascending_filter (f : Interval -> bool) l :
  ascending l -> ascending (filter f l).
Proof.
  unfold ascending. induction 1 as [|a l Hs IH Hf]; simpl; [constructor|].
  destruct (f a); [|assumption].
  constructor; [assumption|].
  rewrite Forall_forall in *. intros y Hy.
  apply filter_In in Hy. now apply Hf.
Qed.

Lemma inDirection_perm iteratesForward l :
  Permutation (inDirection iteratesForward l) l.
Proof.
  destruct iteratesForward; simpl; [reflexivity|].
  symmetry. apply Permutation_rev.
Qed.

Lemma isEmpty_inorder t : IntervalTree.isEmpty t = true -> IntervalTree.inorder t = [].
Proof. destruct t; [reflexivity|discriminate]. Qed.

(** With neither filter the whole tree is gathered in the given direction. *)
Lemma gatherIterationResults_all_run results iteratesForward w :
  IntervalTree.isEmpty (intervalTree w) = false ->
  gatherIterationResults results iteratesForward None None w
  = (Returned (results ++ inDirection iteratesForward
                             (IntervalTree.inorder (intervalTree w))),
     mkWorld (intervalTree w)
       (calls w ++ [CallIsEmpty;
                    if iteratesForward then CallMap else CallMapBackward])).
Proof.
  intros Hne.
  unfold gatherIterationResults, bind, readTree, record. rewrite Hne.
  destruct iteratesForward; simpl; rewrite <- app_assoc; simpl.
  - rewrite map_inorder, fold_push. reflexivity.
  - rewrite mapBackward_inorder, fold_push. reflexivity.
Qed.

Lemma gatherIterationResults_all_result results iteratesForward w :
  fst (gatherIterationResults results iteratesForward None None w)
  = Returned (results ++ inDirection iteratesForward
                           (IntervalTree.inorder (intervalTree w))).
Proof.
  destruct (IntervalTree.isEmpty (intervalTree w)) eqn:E.
  - rewrite gatherIterationResults_guard by assumption.
    rewrite (isEmpty_inorder _ E). simpl.
    destruct iteratesForward; simpl; now rewrite app_nil_r.
  - now rewrite gatherIterationResults_all_run.
Qed.

(** C4.  With neither start nor end, [gatherIterationResults] appends every
    registered interval exactly once, in ascending order of [compare] when
    iterating forward and in descending order otherwise, whatever history of
    [add] and [remove] calls the index went through. *)
Theorem gatherIterationResults_all (ops : list IndexOp)
    (results : list Interval) (iteratesForward : bool) (cs : list Call) :
  exists gathered,
    fst (gatherIterationResults results iteratesForward None None
           (mkWorld (treeAfter ops) cs))
    = Returned (results ++ gathered) /\
    gathered = inDirection iteratesForward (IntervalTree.inorder (treeAfter ops)) /\
    Permutation gathered (registered ops) /\
    inOrder iteratesForward gathered.
Proof.
  destruct (history_invariant ops) as (Hs & _ & Hp).
  eexists. split; [apply gatherIterationResults_all_result|].
  simpl. split; [reflexivity|]. split.
  - rewrite inDirection_perm. exact Hp.
  - now apply inDirection_inOrder.
Qed.

(** C7.  Gathering the whole tree forward gives the reversal of gathering
    it backward: the same intervals, ascending against descending. *)
Theorem gatherIterationResults_forward_rev_backward (ops : list IndexOp)
    (cs : list Call) :
  exists forward backward,
    fst (gatherIterationResults [] true None None (mkWorld (treeAfter ops) cs))
    = Returned forward /\
    fst (gatherIterationResults [] false None None (mkWorld (treeAfter ops) cs))
    = Returned backward /\
    forward = rev backward /\
    ascending forward /\ descending backward.
Proof.
  destruct (history_invariant ops) as (Hs & _ & _).
  exists (IntervalTree.inorder (treeAfter ops)),
         (rev (IntervalTree.inorder (treeAfter ops))).
  rewrite !gatherIterationResults_all_result. simpl.
  repeat split; auto.
  - now rewrite rev_involutive.
  - now apply descending_rev.
Qed.

(** C5.  On a non-empty tree, with only an end [E], [gatherIterationResults]
    walks the whole tree in the given direction and appends exactly the
    registered intervals whose end compares equal to the probe's end under
    [compareEnd], in ascending order when iterating forward and in
    descending order otherwise. *)
Theorem gatherIterationResults_end_only (ops : list IndexOp)
    (results : list Interval) (iteratesForward : bool) (E : SequencePlace)
    (cs : list Call) :
  IntervalTree.isEmpty (treeAfter ops) = false ->
  let probe := create "transient" PlaceStart E Transient in
  let matching := fun interval => compareEnd probe interval =? 0 in
  let gathered :=
    inDirection iteratesForward
      (filter matching (IntervalTree.inorder (treeAfter ops))) in
  gatherIterationResults results iteratesForward None (Some E)
    (mkWorld (treeAfter ops) cs)
  = (Returned (results ++ gathered),
     mkWorld (treeAfter ops)
       (cs ++ [CallIsEmpty; CallCreate "transient" PlaceStart E Transient;
               if iteratesForward then CallMap else CallMapBackward])) /\
  end_ probe = normalizeSequencePlace E /\
  Permutation gathered (filter matching (registered ops)) /\
  inOrder iteratesForward gathered.
Proof.
  intros Hne probe matching gathered.
  destruct (history_invariant ops) as (Hs & _ & Hp).
  split; [|split; [reflexivity|split]].
  - unfold gatherIterationResults, bind, readTree, helpers_create, record.
    simpl. rewrite Hne. subst gathered.
    destruct iteratesForward; simpl; rewrite <- !app_assoc; simpl.
    + rewrite map_inorder. fold probe.
      rewrite (fold_push_if matching). reflexivity.
    + rewrite mapBackward_inorder. fold probe.
      rewrite (fold_push_if matching), filter_rev. reflexivity.
  - subst gathered. rewrite inDirection_perm. now apply filter_perm.
  - apply inDirection_inOrder. now apply ascending_filter.
Qed.

(** On the sample index with [0,5] added: gathering backward by the end 5. *)
Lemma gatherIterationResults_end_only_witness :
  gatherIterationResults [] false None (Some (PlaceNumber 5))
    (mkWorld (treeAfter (sampleHistory ++ [OpAdd (sampleInterval "d" 0 5)])) [])
  = (Returned (inDirection false
                 (filter (fun interval =>
                            compareEnd (create "transient" PlaceStart
                                          (PlaceNumber 5) Transient) interval
                            =? 0)
                         (IntervalTree.inorder
                            (treeAfter (sampleHistory
                                          ++ [OpAdd (sampleInterval "d" 0 5)]))))),
     mkWorld (treeAfter (sampleHistory ++ [OpAdd (sampleInterval "d" 0 5)]))
       [CallIsEmpty; CallCreate "transient" PlaceStart (PlaceNumber 5) Transient;
        CallMapBackward]).
Proof.
  apply (gatherIterationResults_end_only
           (sampleHistory ++ [OpAdd (sampleInterval "d" 0 5)]) [] false
           (PlaceNumber 5) []).
  reflexivity.
Defined.

(** C6.  On a non-empty tree, with a start (and possibly an end),
    [gatherIterationResults] runs the pruned walk, forward or backward, with
    the probe's [compareStart] as comparator when the end is absent and its
    [compare] when both are given, continuing left on [cmp <= 0] and right
    on [cmp >= 0], and appends the keys of the visited nodes: these are the
    registered intervals the comparator maps to zero, in the direction of
    the walk. *)
Theorem gatherIterationResults_from_start (ops : list IndexOp)
    (results : list Interval) (iteratesForward : bool) (S : SequencePlace)
    (E : option SequencePlace) (cs : list Call) :
  IntervalTree.isEmpty (treeAfter ops) = false ->
  let transientInterval := create "transient" S (nullish E PlaceEnd) Transient in
  let probeCompare := fun interval =>
    match E with
    | None => compareStart transientInterval interval
    | Some _ => compare transientInterval interval
    end in
  let compareFn := fun node => probeCompare (IntervalTree.key node) in
  let continueLeftFn := fun cmpResult => cmpResult <=? 0 in
  let continueRightFn := fun cmpResult => cmpResult >=? 0 in
  let actionFn := fun node rs => push rs (IntervalTree.key node) in
  let walked :=
    if iteratesForward
    then IntervalTree.walkExactMatchesForward compareFn actionFn
           continueLeftFn continueRightFn (treeAfter ops) results
    else IntervalTree.walkExactMatchesBackward compareFn actionFn
           continueLeftFn continueRightFn (treeAfter ops) results in
  gatherIterationResults results iteratesForward (Some S) E
    (mkWorld (treeAfter ops) cs)
  = (Returned walked,
     mkWorld (treeAfter ops)
       (cs ++ [CallIsEmpty;
               CallCreate "transient" S (nullish E PlaceEnd) Transient;
               if iteratesForward then CallWalkExactMatchesForward
               else CallWalkExactMatchesBackward])) /\
  walked = results ++ inDirection iteratesForward
                        (filter (fun interval => probeCompare interval =? 0)
                                (IntervalTree.inorder (treeAfter ops))).
Proof.
  intros Hne probe probeCompare compareFn continueLeftFn continueRightFn
         actionFn walked.
  destruct (history_invariant ops) as (Hs & _ & _).
  split.
  - unfold gatherIterationResults, bind, readTree, helpers_create, record.
    simpl. rewrite Hne. subst walked compareFn probeCompare.
    destruct E, iteratesForward; simpl; rewrite <- !app_assoc; reflexivity.
  - assert (Hm : probeMonotone probeCompare).
    { subst probeCompare. destruct E;
        [apply compare_probeMonotone|apply compareStart_probeMonotone]. }
    subst walked. change actionFn with pushKey.
    destruct iteratesForward; simpl.
    + rewrite walkForward_app. f_equal. now apply walkForward_exact.
    + rewrite walkBackward_app. f_equal. now apply walkBackward_exact.
Qed.

(** On the sample index: gathering forward from the start 2. *)
Lemma gatherIterationResults_from_start_witness :
  gatherIterationResults [] true (Some (PlaceNumber 2)) None
    (mkWorld (treeAfter sampleHistory) [])
  = (Returned
       (IntervalTree.walkExactMatchesForward
          (fun node =>
             compareStart (create "transient" (PlaceNumber 2) PlaceEnd Transient)
                          (IntervalTree.key node))
          (fun node rs => push rs (IntervalTree.key node))
          (fun cmpResult => cmpResult <=? 0) (fun cmpResult => cmpResult >=? 0)
          (treeAfter sampleHistory) []),
     mkWorld (treeAfter sampleHistory)
       [CallIsEmpty; CallCreate "transient" (PlaceNumber 2) PlaceEnd Transient;
        CallWalkExactMatchesForward]).
Proof.
  apply (gatherIterationResults_from_start sampleHistory [] true
           (PlaceNumber 2) None []).
  reflexivity.
Defined.

(** ** findOverlappingIntervals *)

(** C1.  For a query range whose normalized start does not lie after its
    normalized end in the position order -- and, more generally, for every
    range the inversion test lets through -- [findOverlappingIntervals]
    returns exactly the registered intervals [I] with [I.start <= end] and
    [I.end >= start], each as often as it is registered; two histories that
    register the same intervals in different orders give the same
    intervals. *)
Theorem findOverlappingIntervals_exact (ops ops' : list IndexOp)
    (s e : SequencePlace) (cs cs' : list Call) :
  placeLe (normalizeSequencePlace s) (normalizeSequencePlace e) \/
  invertedSearchInterval (pos (normalizeSequencePlace s))
    (side (normalizeSequencePlace s)) (pos (normalizeSequencePlace e))
    (side (normalizeSequencePlace e)) = false ->
  Permutation (registered ops) (registered ops') ->
  exists found found',
    fst (findOverlappingIntervals s e (mkWorld (treeAfter ops) cs))
    = Returned found /\
    fst (findOverlappingIntervals s e (mkWorld (treeAfter ops') cs'))
    = Returned found' /\
    found = filter (overlapsRange s e) (IntervalTree.inorder (treeAfter ops)) /\
    Permutation found (filter (overlapsRange s e) (registered ops)) /\
    Permutation found found'.
Proof.
  intros Hrange Hperm.
  assert (Hinv : invertedSearchInterval (pos (normalizeSequencePlace s))
                   (side (normalizeSequencePlace s))
                   (pos (normalizeSequencePlace e))
                   (side (normalizeSequencePlace e)) = false).
  { destruct Hrange as [Hle|Hinv]; [|exact Hinv].
    now apply ordered_range_not_inverted. }
  assert (Hrun : forall h c,
            fst (findOverlappingIntervals s e (mkWorld (treeAfter h) c))
            = Returned (filter (overlapsRange s e)
                               (IntervalTree.inorder (treeAfter h)))).
  { intros h c. destruct (history_invariant h) as (Hs & Ha & _).
    rewrite findOverlappingIntervals_run, Hinv. simpl.
    destruct (IntervalTree.isEmpty (treeAfter h)) eqn:E; simpl.
    - now rewrite (isEmpty_inorder _ E).
    - rewrite match_exact by assumption. reflexivity. }
  destruct (history_invariant ops) as (_ & _ & Hp).
  destruct (history_invariant ops') as (_ & _ & Hp').
  do 2 eexists. split; [apply Hrun|]. split; [apply Hrun|].
  split; [reflexivity|]. split; apply filter_perm.
  - exact Hp.
  - rewrite Hp, Hperm. symmetry. exact Hp'.
Qed.

(** On the sample index and on the one built in the reverse order: the
    intervals that overlap the range from 3 to 4. *)
Lemma findOverlappingIntervals_exact_witness :
  exists found found',
    fst (findOverlappingIntervals (PlaceNumber 3) (PlaceNumber 4)
           (mkWorld (treeAfter sampleHistory) []))
    = Returned found /\
    fst (findOverlappingIntervals (PlaceNumber 3) (PlaceNumber 4)
           (mkWorld (treeAfter (rev sampleHistory)) []))
    = Returned found' /\
    found = filter (overlapsRange (PlaceNumber 3) (PlaceNumber 4))
                   (IntervalTree.inorder (treeAfter sampleHistory)) /\
    Permutation found
      (filter (overlapsRange (PlaceNumber 3) (PlaceNumber 4))
              (registered sampleHistory)) /\
    Permutation found found'.
Proof.
  apply (findOverlappingIntervals_exact sampleHistory (rev sampleHistory)
           (PlaceNumber 3) (PlaceNumber 4) [] []).
  - left. vm_compute. discriminate.
  - simpl. apply Permutation_rev.
Defined.

(** The three sample intervals all overlap the range from 3 to 4. *)
Example findOverlappingIntervals_sample :
  fst (findOverlappingIntervals (PlaceNumber 3) (PlaceNumber 4)
         (worldAfter sampleHistory))
  = Returned [sampleInterval "a" 1 3; sampleInterval "c" 2 5;
              sampleInterval "b" 4 6].
Proof. reflexivity. Qed.

(** ** The queries leave the tree alone *)

Lemma gatherIterationResults_frame results iteratesForward s e w :
  exists gathered newCalls,
    gatherIterationResults results iteratesForward s e w
    = (Returned (results ++ gathered),
       mkWorld (intervalTree w) (calls w ++ newCalls)) /\
    forallb readOnly newCalls = true /\
    incl gathered (IntervalTree.inorder (intervalTree w)).
Proof.
  destruct (IntervalTree.isEmpty (intervalTree w)) eqn:Hne.
  { exists [], [CallIsEmpty].
    rewrite gatherIterationResults_guard, app_nil_r by assumption.
    repeat split. intros y []. }
  destruct s as [S|]; [|destruct e as [E|]].
  - set (probe := create "transient" S (nullish e PlaceEnd) Transient).
    set (compareFn := fun node : IntervalTree.IntervalNode =>
           match e with
           | None => compareStart probe (IntervalTree.key node)
           | Some _ => compare probe (IntervalTree.key node)
           end).
    exists (if iteratesForward
            then IntervalTree.walkExactMatchesForward compareFn pushKey
                   (fun c => c <=? 0) (fun c => c >=? 0) (intervalTree w) []
            else IntervalTree.walkExactMatchesBackward compareFn pushKey
                   (fun c => c <=? 0) (fun c => c >=? 0) (intervalTree w) []),
           [CallIsEmpty; CallCreate "transient" S (nullish e PlaceEnd) Transient;
            if iteratesForward then CallWalkExactMatchesForward
            else CallWalkExactMatchesBackward].
    split; [|split].
    + unfold gatherIterationResults, bind, readTree, helpers_create, record.
      simpl. rewrite Hne. subst compareFn probe.
      destruct e, iteratesForward; simpl; rewrite <- !app_assoc; simpl;
        first [ rewrite <- (walkForward_app _ _ _ _ results)
              | rewrite <- (walkBackward_app _ _ _ _ results) ]; reflexivity.
    + destruct iteratesForward; reflexivity.
    + destruct iteratesForward;
        [apply walkForward_stored|apply walkBackward_stored].
  - set (probe := create "transient" PlaceStart E Transient).
    exists (inDirection iteratesForward
              (filter (fun i => compareEnd probe i =? 0)
                      (IntervalTree.inorder (intervalTree w)))),
           [CallIsEmpty; CallCreate "transient" PlaceStart E Transient;
            if iteratesForward then CallMap else CallMapBackward].
    split; [|split].
    + unfold gatherIterationResults, bind, readTree, helpers_create, record.
      simpl. rewrite Hne. fold probe.
      destruct iteratesForward; simpl; rewrite <- !app_assoc; simpl.
      * rewrite map_inorder,
          (fold_push_if (fun i => compareEnd probe i =? 0)). reflexivity.
      * rewrite mapBackward_inorder,
          (fold_push_if (fun i => compareEnd probe i =? 0)), filter_rev.
        reflexivity.
    + destruct iteratesForward; reflexivity.
    + intros y Hy.
      eapply Permutation_in in Hy; [|apply inDirection_perm].
      apply filter_In in Hy. tauto.
  - exists (inDirection iteratesForward (IntervalTree.inorder (intervalTree w))),
           [CallIsEmpty; if iteratesForward then CallMap else CallMapBackward].
    rewrite gatherIterationResults_all_run by assumption.
    split; [reflexivity|split].
    + destruct iteratesForward; reflexivity.
    + intros y Hy. eapply Permutation_in; [apply inDirection_perm|exact Hy].
Qed.

Lemma findOverlappingIntervals_frame s e w :
  exists found newCalls,
    findOverlappingIntervals s e w
    = (Returned found, mkWorld (intervalTree w) (calls w ++ newCalls)) /\
    forallb readOnly newCalls = true /\
    incl found (IntervalTree.inorder (intervalTree w)).
Proof.
  rewrite findOverlappingIntervals_run.
  destruct (invertedSearchInterval _ _ _ _).
  { exists [], []. rewrite app_nil_r. destruct w; repeat split. intros y []. }
  destruct (IntervalTree.isEmpty (intervalTree w)).
  { exists [], [CallIsEmpty]. repeat split. intros y []. }
  exists (List.map IntervalTree.key
            (IntervalTree.match_ (searchProbe s e) (intervalTree w))),
         [CallIsEmpty; CallCreate "transient" s e Transient;
          CallMatch (searchProbe s e)].
  split; [|split; [reflexivity|apply match_stored]].
  unfold record. simpl. rewrite <- !app_assoc. reflexivity.
Qed.

(** C8.  Neither query modifies the tree.  After [findOverlappingIntervals]
    and after [gatherIterationResults] the world holds the same tree; the
    calls made only read the tree or build the probe, none inserts or
    removes; and every interval returned or gathered is the key of a node of
    the tree. *)
Theorem queries_leave_tree_unchanged (w : World) (s e : SequencePlace)
    (results : list Interval) (iteratesForward : bool)
    (gs ge : option SequencePlace) :
  (exists found newCalls,
     findOverlappingIntervals s e w
     = (Returned found, mkWorld (intervalTree w) (calls w ++ newCalls)) /\
     forallb readOnly newCalls = true /\
     incl found (IntervalTree.inorder (intervalTree w))) /\
  (exists gathered newCalls,
     gatherIterationResults results iteratesForward gs ge w
     = (Returned (results ++ gathered),
        mkWorld (intervalTree w) (calls w ++ newCalls)) /\
     forallb readOnly newCalls = true /\
     incl gathered (IntervalTree.inorder (intervalTree w))).
Proof.
  split;
    [apply findOverlappingIntervals_frame|apply gatherIterationResults_frame].
Qed.

(** ** remove *)

(** C9.  Removing an interval that is not registered -- one that was never
    added, or one that was already removed -- fails loudly: [remove] ends
    with the tree's error instead of returning, and the tree is left as it
    was. *)
Theorem remove_unregistered_fails (ops : list IndexOp) (interval : Interval)
    (cs : list Call) :
  ~ In interval (registered ops) ->
  remove interval (mkWorld (treeAfter ops) cs)
  = (Thrown intervalNotFound,
     mkWorld (treeAfter ops) (cs ++ [CallRemoveExisting interval])).
Proof.
  intros Habsent.
  destruct (history_invariant ops) as (_ & _ & Hp).
  unfold remove, updateTreeOrThrow, record. simpl.
  destruct (IntervalTree.removeExisting interval (treeAfter ops))
    as [t'|] eqn:E; [|reflexivity].
  exfalso. apply Habsent.
  destruct (removeExisting_found _ _ _ E) as (l1 & l2 & E1 & _).
  eapply Permutation_in; [exact Hp|].
  rewrite E1. apply in_elt.
Qed.

(** On the sample index: [1,3] is removed, and removing it again fails. *)
Lemma remove_unregistered_fails_witness :
  remove (sampleInterval "a" 1 3)
    (mkWorld (treeAfter (sampleHistory ++ [OpRemove (sampleInterval "a" 1 3)])) [])
  = (Thrown intervalNotFound,
     mkWorld (treeAfter (sampleHistory ++ [OpRemove (sampleInterval "a" 1 3)]))
             [CallRemoveExisting (sampleInterval "a" 1 3)]).
Proof.
  apply (remove_unregistered_fails
           (sampleHistory ++ [OpRemove (sampleInterval "a" 1 3)])
           (sampleInterval "a" 1 3) []).
  vm_compute. intros H. repeat destruct H as [H|H]; try discriminate H. exact H.
Defined.

(** * Further properties of the index *)

Lemma filter_all {A : Type} (l : list A) : filter (fun _ => true) l = l.
Proof. induction l as [|a l IH]; simpl; [reflexivity|now rewrite IH]. Qed.

Lemma filter_both {A : Type} (f g : A -> bool) (l : list A) :
  filter f (filter g l) = filter (fun x => g x && f x) l.
Proof.
  induction l as [|a l IH]; simpl; [reflexivity|].
  destruct (g a); simpl; [destruct (f a)|]; now rewrite IH.
Qed.

(** What [gatherIterationResults] returns on an ordered tree, for every
    combination of filters. *)
Lemma gatherIterationResults_result results iteratesForward s e w :
  ascending (IntervalTree.inorder (intervalTree w)) ->
  fst (gatherIterationResults results iteratesForward s e w)
  = Returned (results ++ inDirection iteratesForward
                           (filter (gatherMatches s e)
                                   (IntervalTree.inorder (intervalTree w)))).
Proof.
  intros Hs.
  destruct (IntervalTree.isEmpty (intervalTree w)) eqn:Hne.
  { rewrite gatherIterationResults_guard by assumption.
    rewrite (isEmpty_inorder _ Hne). simpl.
    destruct iteratesForward; simpl; now rewrite app_nil_r. }
  destruct s as [S|]; [|destruct e as [E|]].
  - assert (Hm : probeMonotone
                   (fun i => match e with
                             | None => compareStart
                                 (create "transient" S (nullish e PlaceEnd) Transient) i
                             | Some _ => compare
                                 (create "transient" S (nullish e PlaceEnd) Transient) i
                             end)).
    { destruct e; [apply compare_probeMonotone|apply compareStart_probeMonotone]. }
    unfold gatherIterationResults, bind, readTree, helpers_create, record.
    simpl. rewrite Hne.
    destruct e, iteratesForward; simpl;
      change (fun (node : IntervalTree.IntervalNode) (rs : list Interval) =>
                push rs (IntervalTree.key node)) with pushKey;
      first [ rewrite walkForward_app | rewrite walkBackward_app ]; do 2 f_equal;
      first [ apply (walkForward_exact _ _ Hm Hs)
            | apply (walkBackward_exact _ _ Hm Hs) ].
  - unfold gatherIterationResults, bind, readTree, helpers_create, record.
    simpl. rewrite Hne.
    destruct iteratesForward; simpl.
    + rewrite map_inorder,
        (fold_push_if (fun i => compareEnd
                                  (create "transient" PlaceStart E Transient) i
                                =? 0)).
      reflexivity.
    + rewrite mapBackward_inorder,
        (fold_push_if (fun i => compareEnd
                                  (create "transient" PlaceStart E Transient) i
                                =? 0)),
        filter_rev.
      reflexivity.
  - rewrite gatherIterationResults_all_result.
    unfold gatherMatches. simpl. now rewrite filter_all.
Qed.

(** What [findOverlappingIntervals] returns after any history. *)
Lemma findOverlappingIntervals_result ops s e cs :
  fst (findOverlappingIntervals s e (mkWorld (treeAfter ops) cs))
  = Returned
      (if invertedSearchInterval (pos (normalizeSequencePlace s))
            (side (normalizeSequencePlace s)) (pos (normalizeSequencePlace e))
            (side (normalizeSequencePlace e))
       then []
       else filter (overlapsRange s e) (IntervalTree.inorder (treeAfter ops))).
Proof.
  destruct (history_invariant ops) as (Hs & Ha & _).
  rewrite findOverlappingIntervals_run.
  destruct (invertedSearchInterval _ _ _ _); [reflexivity|]. simpl.
  destruct (IntervalTree.isEmpty (treeAfter ops)) eqn:E; simpl.
  - now rewrite (isEmpty_inorder _ E).
  - rewrite match_exact by assumption. reflexivity.
Qed.

Lemma bal_not_empty l k r : IntervalTree.isEmpty (IntervalTree.bal l k r) = false.
Proof.
  unfold IntervalTree.bal.
  repeat match goal with
         | |- context [if ?b then _ else _] => destruct b
         | |- context [match ?t with IntervalTree.Leaf => _ | _ => _ end] =>
             destruct t
         end; reflexivity.
Qed.

Lemma put_not_empty x t : IntervalTree.isEmpty (IntervalTree.put x t) = false.
Proof.
  destruct t as [|l n r]; simpl; [reflexivity|].
  destruct (compare x (IntervalTree.key n) <? 0); apply bal_not_empty.
Qed.


(** Removing the only occurrence leaves none. *)
Lemma removeOne_last x l :
  count_occ Interval_eq_dec l x = 1%nat -> ~ In x (removeOne x l).
Proof.
  induction l as [|a l IH]; simpl; [discriminate|].
  destruct (Interval_eq_dec a x) as [->|Hne].
  - intros H. destruct (Interval_eq_dec x x) as [_|]; [|congruence].
    injection H as H. now apply (count_occ_not_In Interval_eq_dec).
  - intros H. destruct (Interval_eq_dec x a) as [->|_]; [congruence|].
    intros [->|Hin]; [congruence|]. now apply IH.
Qed.

(** X1.  On an empty tree [findOverlappingIntervals] returns the empty array
    for every range: at most the emptiness check is made, no probe is built
    and the tree is not searched. *)
Theorem findOverlappingIntervals_empty (s e : SequencePlace) (w : World) :
  IntervalTree.isEmpty (intervalTree w) = true ->
  exists newCalls,
    findOverlappingIntervals s e w
    = (Returned [], mkWorld (intervalTree w) (calls w ++ newCalls)) /\
    (newCalls = [] \/ newCalls = [CallIsEmpty]).
Proof.
  intros Hempty. rewrite findOverlappingIntervals_run, Hempty.
  destruct (invertedSearchInterval _ _ _ _).
  - exists []. rewrite app_nil_r. destruct w; auto.
  - exists [CallIsEmpty]. auto.
Qed.

(** On a fresh index, the range from 0 to 5. *)
Lemma findOverlappingIntervals_empty_witness :
  exists newCalls,
    findOverlappingIntervals (PlaceNumber 0) (PlaceNumber 5) emptyWorld
    = (Returned [], mkWorld IntervalTree.Leaf ([] ++ newCalls)) /\
    (newCalls = [] \/ newCalls = [CallIsEmpty]).
Proof.
  apply (findOverlappingIntervals_empty (PlaceNumber 0) (PlaceNumber 5) emptyWorld).
  reflexivity.
Defined.

(** X2.  A query whose start and end are the same place never trips the
    inversion test: on a non-empty tree it builds the probe and searches the
    tree, whatever the place is (a resolved offset with either side, or one
    of the two sentinels). *)
Theorem point_query_is_searched (p : SequencePlace) (w : World) :
  IntervalTree.isEmpty (intervalTree w) = false ->
  searchedTree p p w.
Proof.
  intros Hne. unfold searchedTree.
  rewrite findOverlappingIntervals_run, Hne.
  replace (invertedSearchInterval _ _ _ _) with false; [reflexivity|].
  unfold invertedSearchInterval.
  destruct (normalizeSequencePlace p) as [n sd]. simpl.
  rewrite Z.ltb_irrefl.
  destruct (n =? -1), sd; reflexivity.
Qed.

(** On the sample index, the point at the end of the sequence. *)
Lemma point_query_is_searched_witness :
  searchedTree PlaceEnd PlaceEnd (worldAfter sampleHistory).
Proof.
  apply (point_query_is_searched PlaceEnd (worldAfter sampleHistory)).
  reflexivity.
Defined.

(** X3.  A query that starts at [(-1, After)] or that ends at [(-1, Before)]
    never trips the inversion test, whatever its other endpoint is: on a
    non-empty tree it builds the probe and searches the tree. *)
Theorem open_ended_query_is_searched (s e : SequencePlace) (w : World) :
  IntervalTree.isEmpty (intervalTree w) = false ->
  normalizeSequencePlace s = mkPlace (-1) After \/
  normalizeSequencePlace e = mkPlace (-1) Before ->
  searchedTree s e w.
Proof.
  intros Hne Hopen. unfold searchedTree.
  rewrite findOverlappingIntervals_run, Hne.
  replace (invertedSearchInterval _ _ _ _) with false; [reflexivity|].
  unfold invertedSearchInterval.
  destruct Hopen as [-> | ->]; simpl.
  - destruct (normalizeSequencePlace e) as [n sd]. simpl.
    destruct (n =? -1), sd; reflexivity.
  - destruct (normalizeSequencePlace s) as [n sd]. simpl.
    destruct (n =? -1), sd; reflexivity.
Qed.

(** On the sample index, from offset 5 with side [After] to the end of the
    sequence. *)
Lemma open_ended_query_is_searched_witness :
  searchedTree (PlaceInterior 5 After) PlaceEnd (worldAfter sampleHistory).
Proof.
  apply (open_ended_query_is_searched (PlaceInterior 5 After) PlaceEnd
           (worldAfter sampleHistory)); [reflexivity|right; reflexivity].
Defined.


(** X5.  Insert then look up: after [add(I)], every query whose range the
    inversion test lets through and that [I] overlaps returns [I]. *)
Theorem add_then_find (ops : list IndexOp) (interval : Interval)
    (s e : SequencePlace) (cs : list Call) :
  invertedSearchInterval (pos (normalizeSequencePlace s))
    (side (normalizeSequencePlace s)) (pos (normalizeSequencePlace e))
    (side (normalizeSequencePlace e)) = false ->
  overlapsRange s e interval = true ->
  exists found,
    fst (findOverlappingIntervals s e
           (mkWorld (treeAfter (ops ++ [OpAdd interval])) cs))
    = Returned found /\
    In interval found.
Proof.
  intros Hinv Hov.
  destruct (history_invariant (ops ++ [OpAdd interval])) as (_ & _ & Hp).
  eexists. split; [apply findOverlappingIntervals_result|].
  rewrite Hinv. apply filter_In. split; [|exact Hov].
  eapply Permutation_in; [symmetry; exact Hp|].
  rewrite registered_snoc. now left.
Qed.

(** On the sample index: [7,8] is added and found by the query from 8 to
    9. *)
Lemma add_then_find_witness :
  exists found,
    fst (findOverlappingIntervals (PlaceNumber 8) (PlaceNumber 9)
           (mkWorld (treeAfter (sampleHistory ++ [OpAdd (sampleInterval "z" 7 8)]))
                    []))
    = Returned found /\
    In (sampleInterval "z" 7 8) found.
Proof.
  apply (add_then_find sampleHistory (sampleInterval "z" 7 8)
           (PlaceNumber 8) (PlaceNumber 9) []); reflexivity.
Defined.

(** X6.  Round trip: for an interval [I] that is not registered, [add(I)]
    followed at once by [remove(I)] leaves the index with the same intervals
    as before (as a bag), still in ascending order, also when intervals with
    the endpoints of [I] are registered; the [remove] returns normally. *)
Theorem add_remove_round_trip (ops : list IndexOp) (interval : Interval)
    (results : list Interval) (cs : list Call) :
  ~ In interval (registered ops) ->
  exists before after,
    fst (gatherIterationResults results true None None
           (mkWorld (treeAfter ops) cs))
    = Returned (results ++ before) /\
    fst (gatherIterationResults results true None None
           (mkWorld (treeAfter (ops ++ [OpAdd interval; OpRemove interval])) cs))
    = Returned (results ++ after) /\
    Permutation after before /\
    ascending after /\
    fst (remove interval (mkWorld (treeAfter (ops ++ [OpAdd interval])) cs))
    = Returned tt.
Proof.
  intros Hfresh.
  destruct (history_invariant ops) as (_ & _ & Hp).
  destruct (history_invariant (ops ++ [OpAdd interval])) as (Hs1 & _ & Hp1).
  destruct (history_invariant (ops ++ [OpAdd interval; OpRemove interval]))
    as (Hs' & _ & Hp').
  do 2 eexists.
  split; [apply gatherIterationResults_all_result|].
  split; [apply gatherIterationResults_all_result|].
  simpl. split; [|split; [exact Hs'|]].
  - rewrite Hp', Hp.
    change (ops ++ [OpAdd interval; OpRemove interval])
      with (ops ++ [OpAdd interval] ++ [OpRemove interval]).
    rewrite app_assoc, !registered_snoc. simpl.
    destruct (Interval_eq_dec interval interval); [reflexivity|congruence].
  - unfold remove, updateTreeOrThrow. simpl.
    pose proof (removeExisting_finds interval
                  (treeAfter (ops ++ [OpAdd interval])) Hs1) as Hfinds.
    destruct (IntervalTree.removeExisting interval
                (treeAfter (ops ++ [OpAdd interval]))); [reflexivity|].
    exfalso. apply Hfinds; [|reflexivity].
    eapply Permutation_in; [symmetry; exact Hp1|].
    rewrite registered_snoc. now left.
Qed.

(** On the sample index: [2,5] under another label is added and removed
    again, next to the registered [2,5]. *)
Lemma add_remove_round_trip_witness :
  exists before after,
    fst (gatherIterationResults [] true None None
           (mkWorld (treeAfter sampleHistory) []))
    = Returned ([] ++ before) /\
    fst (gatherIterationResults [] true None None
           (mkWorld (treeAfter (sampleHistory
                                  ++ [OpAdd (sampleInterval "d" 2 5);
                                      OpRemove (sampleInterval "d" 2 5)])) []))
    = Returned ([] ++ after) /\
    Permutation after before /\
    ascending after /\
    fst (remove (sampleInterval "d" 2 5)
           (mkWorld (treeAfter (sampleHistory ++ [OpAdd (sampleInterval "d" 2 5)]))
                    []))
    = Returned tt.
Proof.
  apply (add_remove_round_trip sampleHistory (sampleInterval "d" 2 5) [] []).
  simpl. intros H. repeat destruct H as [H|H]; try discriminate H. exact H.
Defined.

(** X7.  [remove(I)] of a registered interval takes exactly one occurrence
    of [I] out of the index: every other interval, also one with the same
    endpoints as [I], stays, and the order stays ascending. *)
Theorem remove_registered (ops : list IndexOp) (interval : Interval)
    (results : list Interval) (cs : list Call) :
  In interval (registered ops) ->
  exists before after,
    fst (gatherIterationResults results true None None
           (mkWorld (treeAfter ops) cs))
    = Returned (results ++ before) /\
    fst (gatherIterationResults results true None None
           (mkWorld (treeAfter (ops ++ [OpRemove interval])) cs))
    = Returned (results ++ after) /\
    Permutation (interval :: after) before /\
    ascending after.
Proof.
  intros Hin.
  destruct (history_invariant ops) as (_ & _ & Hp).
  destruct (history_invariant (ops ++ [OpRemove interval])) as (Hs' & _ & Hp').
  do 2 eexists.
  split; [apply gatherIterationResults_all_result|].
  split; [apply gatherIterationResults_all_result|].
  simpl. split; [|exact Hs'].
  rewrite Hp', Hp, registered_snoc.
  now apply removeOne_present.
Qed.

(** On the sample index: removing [4,6]. *)
Lemma remove_registered_witness :
  exists before after,
    fst (gatherIterationResults [] true None None
           (mkWorld (treeAfter sampleHistory) []))
    = Returned ([] ++ before) /\
    fst (gatherIterationResults [] true None None
           (mkWorld (treeAfter (sampleHistory ++ [OpRemove (sampleInterval "b" 4 6)]))
                    []))
    = Returned ([] ++ after) /\
    Permutation (sampleInterval "b" 4 6 :: after) before /\
    ascending after.
Proof.
  apply (remove_registered sampleHistory (sampleInterval "b" 4 6) [] []).
  simpl. right. left. reflexivity.
Defined.



(** X9.  For every combination of start and end filters, gathering forward
    gives the reversal of gathering backward: the pruned walks and the
    filtered traversals visit the same intervals in opposite orders. *)
Theorem gatherIterationResults_direction (ops : list IndexOp)
    (s e : option SequencePlace) (cs cs' : list Call) :
  exists forward backward,
    fst (gatherIterationResults [] true s e (mkWorld (treeAfter ops) cs))
    = Returned forward /\
    fst (gatherIterationResults [] false s e (mkWorld (treeAfter ops) cs'))
    = Returned backward /\
    forward = rev backward.
Proof.
  destruct (history_invariant ops) as (Hs & _ & _).
  do 2 eexists.
  split; [apply gatherIterationResults_result; exact Hs|].
  split; [apply gatherIterationResults_result; exact Hs|].
  simpl. now rewrite rev_involutive.
Qed.

(** X10.  [map(fn)] runs [fn] over every registered interval exactly once,
    in ascending order of [compare], and leaves the tree as it is; with a
    callback that pushes, it collects what [gatherIterationResults] collects
    forward without filters. *)
Theorem map_visits_in_order (S : Type) (fn : Interval -> S -> S) (s0 : S)
    (ops : list IndexOp) (results : list Interval) (cs : list Call) :
  exists visited,
    OverlappingIntervalsIndex.map fn s0 (mkWorld (treeAfter ops) cs)
    = (Returned (fold_left (fun acc interval => fn interval acc) visited s0),
       mkWorld (treeAfter ops) (cs ++ [CallMap])) /\
    ascending visited /\
    Permutation visited (registered ops) /\
    fst (OverlappingIntervalsIndex.map (fun interval rs => push rs interval)
           results (mkWorld (treeAfter ops) cs))
    = fst (gatherIterationResults results true None None
             (mkWorld (treeAfter ops) cs)).
Proof.
  destruct (history_invariant ops) as (Hs & _ & Hp).
  exists (IntervalTree.inorder (treeAfter ops)).
  unfold OverlappingIntervalsIndex.map, readTree, record. simpl.
  rewrite !map_inorder, gatherIterationResults_all_result, fold_push.
  repeat split; auto.
Qed.

(** X11.  Remove then look up: once the only registered occurrence of [I]
    is removed, no query returns [I]. *)
Theorem remove_then_not_found (ops : list IndexOp) (interval : Interval)
    (s e : SequencePlace) (cs : list Call) :
  count_occ Interval_eq_dec (registered ops) interval = 1%nat ->
  exists found,
    fst (findOverlappingIntervals s e
           (mkWorld (treeAfter (ops ++ [OpRemove interval])) cs))
    = Returned found /\
    ~ In interval found.
Proof.
  intros Hone.
  destruct (history_invariant (ops ++ [OpRemove interval])) as (_ & _ & Hp).
  eexists. split; [apply findOverlappingIntervals_result|].
  destruct (invertedSearchInterval _ _ _ _); [intros []|].
  intros Hin. apply filter_In in Hin. destruct Hin as [Hin _].
  eapply Permutation_in in Hin; [|exact Hp].
  rewrite registered_snoc in Hin.
  now apply (removeOne_last interval (registered ops)).
Qed.

(** On the sample index: [2,5] is removed and the range 3 to 4 no longer
    returns it. *)
Lemma remove_then_not_found_witness :
  exists found,
    fst (findOverlappingIntervals (PlaceNumber 3) (PlaceNumber 4)
           (mkWorld (treeAfter (sampleHistory ++ [OpRemove (sampleInterval "c" 2 5)]))
                    []))
    = Returned found /\
    ~ In (sampleInterval "c" 2 5) found.
Proof.
  apply (remove_then_not_found sampleHistory (sampleInterval "c" 2 5)
           (PlaceNumber 3) (PlaceNumber 4) []).
  reflexivity.
Defined.

(** X12.  Supplying an end besides the start narrows the result: gathering
    with start and end gives exactly those intervals of the start-only gather
    whose end compares equal to the given end. *)
Theorem gatherIterationResults_end_narrows (ops : list IndexOp)
    (iteratesForward : bool) (S E : SequencePlace) (cs cs' : list Call) :
  exists startOnly both,
    fst (gatherIterationResults [] iteratesForward (Some S) None
           (mkWorld (treeAfter ops) cs))
    = Returned startOnly /\
    fst (gatherIterationResults [] iteratesForward (Some S) (Some E)
           (mkWorld (treeAfter ops) cs'))
    = Returned both /\
    both = filter (fun interval =>
                     comparePlace (normalizeSequencePlace E) (end_ interval) =? 0)
                  startOnly.
Proof.
  destruct (history_invariant ops) as (Hs & _ & _).
  do 2 eexists.
  split; [apply gatherIterationResults_result; exact Hs|].
  split; [apply gatherIterationResults_result; exact Hs|].
  simpl.
  assert (Hf : forall l,
            filter (gatherMatches (Some S) (Some E)) l
            = filter (fun interval =>
                        comparePlace (normalizeSequencePlace E) (end_ interval)
                        =? 0)
                     (filter (gatherMatches (Some S) None) l)).
  { intros l. rewrite filter_both. apply filter_ext. intros i.
    unfold gatherMatches, compare, compareStart, compareEnd, thenBy. simpl.
    destruct (comparePlace (normalizeSequencePlace S) (start i) =? 0) eqn:Ec;
      [reflexivity|exact Ec]. }
  rewrite Hf.
  destruct iteratesForward; simpl; [reflexivity|].
  now rewrite filter_rev.
Qed.
